(** * treble.yo: the REST backend of src/api/server.js

    A shallow embedding of the moderation filter [containsBadWords], the
    file-type validator [isValidFileType] and the four data handlers
    (fetch, search, upload, like) of [src/api/server.js], together with the
    library functions they call: [String.prototype.toLowerCase], [trim] and
    [replace], [RegExp] construction and [test], and Node's POSIX
    [path.extname].

    Strings are sequences of code units below 256 (Latin-1); every library
    function is modelled on that range as ECMAScript defines it. *)

From Stdlib Require Import Ascii String NArith ZArith Bool Arith Lia List.
From Stdlib Require Import Sorting.Sorted Sorting.Permutation.
Import ListNotations.

Local Open Scope list_scope.
Local Open Scope bool_scope.

(** ** Characters and strings *)

Definition str := list ascii.

Definition js (s : string) : str := list_ascii_of_string s.
Arguments js s%_string.

Definition code (c : ascii) : N := N_of_ascii c.

Definition in_range (lo hi : N) (c : ascii) : bool :=
  (lo <=? code c)%N && (code c <=? hi)%N.

Definition is_upper_ascii (c : ascii) : bool := in_range 65 90 c.
Definition is_lower_ascii (c : ascii) : bool := in_range 97 122 c.
Definition is_digit (c : ascii) : bool := in_range 48 57 c.

(** The Latin-1 letters with a one-unit case partner: U+00C0..U+00DE
    without the multiplication sign, U+00E0..U+00FE without the division
    sign. *)
Definition is_upper_latin1 (c : ascii) : bool :=
  in_range 192 222 c && negb (code c =? 215)%N.
Definition is_lower_latin1 (c : ascii) : bool :=
  in_range 224 254 c && negb (code c =? 247)%N.

Definition is_upper (c : ascii) : bool := is_upper_ascii c || is_upper_latin1 c.
Definition is_lower (c : ascii) : bool := is_lower_ascii c || is_lower_latin1 c.

Definition toLowerCase_char (c : ascii) : ascii :=
  if is_upper c then ascii_of_N (code c + 32) else c.

(** The upper-case partner of a character, where it is one code unit
    below 256. The sharp s (partner "SS"), the micro sign and the y with
    diaeresis (partners above 255) stay: in a Latin-1 string each of them
    is equal, up to case, to itself only. *)
Definition toUpperCase_char (c : ascii) : ascii :=
  if is_lower c then ascii_of_N (code c - 32) else c.

(** [String.prototype.toLowerCase]. *)
Definition toLowerCase (s : str) : str := map toLowerCase_char s.

(** WhiteSpace and LineTerminator code units: TAB, LF, VT, FF, CR, SP, NBSP.
    This is the set [trim] removes and [\s] matches. *)
Definition is_space (c : ascii) : bool :=
  in_range 9 13 c || (code c =? 32)%N || (code c =? 160)%N.

(** The word characters of [\w] and [\b]: [A-Za-z0-9_]. *)
Definition is_word (c : ascii) : bool :=
  is_upper_ascii c || is_lower_ascii c || is_digit c || (code c =? 95)%N.

Definition is_line_terminator (c : ascii) : bool :=
  (code c =? 10)%N || (code c =? 13)%N.

Fixpoint trimStart (s : str) : str :=
  match s with
  | [] => []
  | c :: r => if is_space c then trimStart r else s
  end.

Definition trimEnd (s : str) : str := rev (trimStart (rev s)).

(** [String.prototype.trim]. *)
Definition trim (s : str) : str := trimEnd (trimStart s).

(** JavaScript truthiness of a value that is a string or absent. *)
Definition truthy (v : option str) : bool :=
  match v with
  | Some (_ :: _) => true
  | _ => false
  end.

Definition str_eqb (a b : str) : bool :=
  if list_eq_dec ascii_dec a b then true else false.

(** [Array.prototype.includes] on strings. *)
Definition includes (l : list str) (x : str) : bool := existsb (str_eqb x) l.

(** ** Outcomes of a computation that may throw

    [Unmodelled] marks a pattern that uses regular-expression syntax outside
    the fragment embedded below; the model says nothing about such a run. *)

Inductive exn := SyntaxError | DuplicateKey.

Inductive outcome (A : Type) :=
| Ok (a : A)
| Throw (e : exn)
| Unmodelled.
Arguments Ok {A} a.
Arguments Throw {A} e.
Arguments Unmodelled {A}.

Definition bind {A B} (m : outcome A) (k : A -> outcome B) : outcome B :=
  match m with
  | Ok a => k a
  | Throw e => Throw e
  | Unmodelled => Unmodelled
  end.

Notation "x <- m ;; k" := (bind m (fun x => k))
  (at level 61, m at next level, right associativity).

(** JavaScript's short-circuit [a || b] on computations that may throw. *)
Definition orelse (a b : outcome bool) : outcome bool :=
  x <- a ;; if x then Ok true else b.

(** ** Regular expressions

    [new RegExp(source, 'i')] and [RegExp.prototype.test], for the patterns
    made of: pattern characters, [.], [^], [$], the escapes [\b \B \d \D \s
    \S \w \W \t \n \v \f \r], an escaped non-alphanumeric character,
    groups [( )] and [(?: )], alternation [|], and the quantifiers
    [* + ?] with their lazy forms. Character classes, braced quantifiers,
    look-around, named groups and the remaining escapes are [Unmodelled].
    Without back-references a group's captures cannot be observed by
    [test], so the syntax tree drops them. *)

Module Regex.

Inductive assertion := AStart | AEnd | AWordB | ANotWordB.
Inductive cclass := CDigit | CSpace | CWord.
Inductive quant := QStar | QPlus | QOpt.

Inductive regex :=
| REmpty
| RChar (c : ascii)
| RAny
| RClass (negated : bool) (k : cclass)
| RAssert (a : assertion)
| RSeq (r1 r2 : regex)
| RAlt (r1 r2 : regex)
| RStar (r : regex)
| RPlus (r : regex)
| ROpt (r : regex).

Inductive token :=
| TChar (c : ascii)
| TAny
| TClass (negated : bool) (k : cclass)
| TAssert (a : assertion)
| TQuant (q : quant)
| TOpen
| TClose
| TBar
| TDangling
| TUnmodelled.

Definition is_alnum (c : ascii) : bool :=
  is_upper_ascii c || is_lower_ascii c || is_digit c.

(** The token of [\e]. *)
Definition escape_token (e : ascii) : token :=
  if (e =? "b")%char then TAssert AWordB
  else if (e =? "B")%char then TAssert ANotWordB
  else if (e =? "d")%char then TClass false CDigit
  else if (e =? "D")%char then TClass true CDigit
  else if (e =? "s")%char then TClass false CSpace
  else if (e =? "S")%char then TClass true CSpace
  else if (e =? "w")%char then TClass false CWord
  else if (e =? "W")%char then TClass true CWord
  else if (e =? "t")%char then TChar (ascii_of_N 9)
  else if (e =? "n")%char then TChar (ascii_of_N 10)
  else if (e =? "v")%char then TChar (ascii_of_N 11)
  else if (e =? "f")%char then TChar (ascii_of_N 12)
  else if (e =? "r")%char then TChar (ascii_of_N 13)
  else if is_alnum e then TUnmodelled
  else TChar e.

(** The token of a character that is neither [\] nor [(]. *)
Definition single_token (c : ascii) : token :=
  if (c =? ".")%char then TAny
  else if (c =? "^")%char then TAssert AStart
  else if (c =? "$")%char then TAssert AEnd
  else if (c =? "*")%char then TQuant QStar
  else if (c =? "+")%char then TQuant QPlus
  else if (c =? "?")%char then TQuant QOpt
  else if (c =? ")")%char then TClose
  else if (c =? "|")%char then TBar
  else if (c =? "[")%char then TUnmodelled
  else if (c =? "{")%char then TUnmodelled
  else TChar c.

Fixpoint tokenize (p : str) : list token :=
  match p with
  | [] => []
  | c :: rest =>
      if (c =? "\")%char then
        match rest with
        | [] => [TDangling]
        | e :: rest' => escape_token e :: tokenize rest'
        end
      else if (c =? "(")%char then
        match rest with
        | [] => [TOpen]
        | q :: rest' =>
            if (q =? "?")%char then
              match rest' with
              | [] => [TUnmodelled]
              | k :: rest'' =>
                  if (k =? ":")%char then TOpen :: tokenize rest''
                  else TUnmodelled :: tokenize rest'
              end
            else TOpen :: tokenize rest
        end
      else single_token c :: tokenize rest
  end.

(** What the term just read allows next: nothing to repeat, an atom that
    takes a quantifier, a quantified atom that takes the lazy mark [?], or a
    lazily quantified atom. *)
Inductive last_term := LNone | LAtom | LQuantified | LLazy.

(** A group being read: its finished alternatives and the terms of the
    current alternative, both newest first. *)
Record frame := mkFrame {
  alts : list regex;
  cur : list regex;
  last : last_term
}.

Definition empty_frame : frame := mkFrame [] [] LNone.

Definition seq_of (terms : list regex) : regex :=
  fold_left (fun acc t => RSeq t acc) terms REmpty.

Definition frame_regex (f : frame) : regex :=
  fold_left (fun acc a => RAlt a acc) (alts f) (seq_of (cur f)).

Definition push_atom (r : regex) (f : frame) : frame :=
  mkFrame (alts f) (r :: cur f) LAtom.

Definition push_assertion (a : assertion) (f : frame) : frame :=
  mkFrame (alts f) (RAssert a :: cur f) LNone.

Definition apply_quant (q : quant) (r : regex) : regex :=
  match q with
  | QStar => RStar r
  | QPlus => RPlus r
  | QOpt => ROpt r
  end.

Definition push_quant (q : quant) (f : frame) : option frame :=
  match last f, cur f with
  | LAtom, r :: rs => Some (mkFrame (alts f) (apply_quant q r :: rs) LQuantified)
  | LQuantified, _ =>
      match q with
      | QOpt => Some (mkFrame (alts f) (cur f) LLazy)
      | _ => None
      end
  | _, _ => None
  end.

Definition next_alternative (f : frame) : frame :=
  mkFrame (seq_of (cur f) :: alts f) [] LNone.

(** The parser: [top] is the innermost open group, [stack] the groups around
    it. A quantifier with nothing to repeat, [)] without [(], [(] without
    [)] and a pattern ending in [\] are syntax errors. *)
Fixpoint parse (ts : list token) (top : frame) (stack : list frame)
  : outcome regex :=
  match ts with
  | [] =>
      match stack with
      | [] => Ok (frame_regex top)
      | _ :: _ => Throw SyntaxError
      end
  | t :: ts' =>
      match t with
      | TChar c => parse ts' (push_atom (RChar c) top) stack
      | TAny => parse ts' (push_atom RAny top) stack
      | TClass n k => parse ts' (push_atom (RClass n k) top) stack
      | TAssert a => parse ts' (push_assertion a top) stack
      | TQuant q =>
          match push_quant q top with
          | Some top' => parse ts' top' stack
          | None => Throw SyntaxError
          end
      | TOpen => parse ts' empty_frame (top :: stack)
      | TClose =>
          match stack with
          | [] => Throw SyntaxError
          | outer :: stack' =>
              parse ts' (push_atom (frame_regex top) outer) stack'
          end
      | TBar => parse ts' (next_alternative top) stack
      | TDangling => Throw SyntaxError
      | TUnmodelled => Unmodelled
      end
  end.

Definition is_unmodelled (t : token) : bool :=
  match t with TUnmodelled => true | _ => false end.

(** The compiled pattern of [new RegExp(source, flags)]; every call in
    server.js passes the flag ['i']. *)
Record RegExp := mkRegExp { ast : regex; ignoreCase : bool }.

Definition RegExp_new (source : str) (ignore_case : bool) : outcome RegExp :=
  let ts := tokenize source in
  if existsb is_unmodelled ts then Unmodelled
  else r <- parse ts empty_frame [] ;; Ok (mkRegExp r ignore_case).

(** *** Matching *)

(** Canonicalize of the non-Unicode case-insensitive mode: the upper-case
    partner when it is a single code unit. *)
Definition Canonicalize (ic : bool) (c : ascii) : ascii :=
  if ic then toUpperCase_char c else c.

Definition char_matches (ic : bool) (c x : ascii) : bool :=
  (Canonicalize ic c =? Canonicalize ic x)%char.

Definition class_matches (k : cclass) (x : ascii) : bool :=
  match k with
  | CDigit => is_digit x
  | CSpace => is_space x
  | CWord => is_word x
  end.

Definition word_at (s : str) (i : nat) : bool :=
  match nth_error s i with
  | Some c => is_word c
  | None => false
  end.

Definition word_before (s : str) (i : nat) : bool :=
  match i with
  | 0 => false
  | S j => word_at s j
  end.

(** [\b] holds where exactly one of the two neighbours is a word
    character. *)
Definition boundary (s : str) (i : nat) : bool :=
  xorb (word_before s i) (word_at s i).

Definition assertion_holds (a : assertion) (s : str) (i : nat) : bool :=
  match a with
  | AStart => i =? 0
  | AEnd => i =? length s
  | AWordB => boundary s i
  | ANotWordB => negb (boundary s i)
  end.

Definition step_char (p : ascii -> bool) (s : str) (i : nat) : list nat :=
  match nth_error s i with
  | Some x => if p x then [S i] else []
  | None => []
  end.

(** Positions reached from [front] by at most [fuel] more rounds of
    [step]. *)
Fixpoint closure (step : nat -> list nat) (fuel : nat) (front : list nat)
  : list nat :=
  match fuel with
  | 0 => front
  | S n => front ++ closure step n (nodup Nat.eq_dec (flat_map step front))
  end.

(** [ends ic r s i]: the positions where a match of [r] that starts at
    position [i] of [s] can end. *)
Fixpoint ends (ic : bool) (r : regex) (s : str) (i : nat) : list nat :=
  match r with
  | REmpty => [i]
  | RChar c => step_char (char_matches ic c) s i
  | RAny => step_char (fun x => negb (is_line_terminator x)) s i
  | RClass n k => step_char (fun x => xorb n (class_matches k x)) s i
  | RAssert a => if assertion_holds a s i then [i] else []
  | RSeq a b => flat_map (ends ic b s) (ends ic a s i)
  | RAlt a b => ends ic a s i ++ ends ic b s i
  | RStar a => closure (ends ic a s) (length s) [i]
  | RPlus a => closure (ends ic a s) (length s) (ends ic a s i)
  | ROpt a => i :: ends ic a s i
  end.

Definition matches_at (re : RegExp) (s : str) (i : nat) : bool :=
  match ends (ignoreCase re) (ast re) s i with
  | [] => false
  | _ :: _ => true
  end.

(** [RegExp.prototype.test] of a pattern without the flags [g] and [y]: is
    there a match starting anywhere in [s]? *)
Definition test (re : RegExp) (s : str) : bool :=
  existsb (matches_at re s) (seq 0 (S (length s))).

End Regex.

(** ** The moderation filter (server.js, lines 23-26 and 68-89) *)

(** [str.split('\n')]. *)
Fixpoint split_lines (s : str) : list str :=
  match s with
  | [] => [[]]
  | c :: r =>
      if (c =? ascii_of_N 10)%char then [] :: split_lines r
      else match split_lines r with
           | [] => [[c]]
           | l :: ls => (c :: l) :: ls
           end
  end.

Definition is_empty (s : str) : bool :=
  match s with [] => true | _ :: _ => false end.

(** The word list: the lines of badwords.txt that are not blank. *)
Definition load_badWords (file : str) : list str :=
  filter (fun word => negb (is_empty (trim word))) (split_lines file).

(** The characters of the class in [/[.,\/#!$%\^&\*;:{}=\-_`~()]/g]. *)
Definition punctuation : str := js ".,/#!$%^&*;:{}=-_`~()".

Definition is_punct (c : ascii) : bool := existsb (Ascii.eqb c) punctuation.

(** [s.replace(/[.,\/#!$%\^&\*;:{}=\-_`~()]/g, '')]. *)
Definition remove_punct (s : str) : str :=
  filter (fun c => negb (is_punct c)) s.

(** [s.replace(/\s+/g, ' ')]: [in_run] tells that the previous character
    was white space. *)
Fixpoint collapse_from (in_run : bool) (s : str) : str :=
  match s with
  | [] => []
  | c :: r =>
      if is_space c then
        if in_run then collapse_from true r
        else " "%char :: collapse_from true r
      else c :: collapse_from false r
  end.

Definition collapse_spaces (s : str) : str := collapse_from false s.

(** [Array.prototype.some] with a callback that may throw: the elements
    are tried in order and the first [true] ends the scan. *)
Fixpoint some {A} (f : A -> outcome bool) (l : list A) : outcome bool :=
  match l with
  | [] => Ok false
  | x :: r => b <- f x ;; if b then Ok true else some f r
  end.

(** The template literal [`\\b${wordLower}\\b`]. *)
Definition word_pattern (wordLower : str) : str :=
  js "\b" ++ wordLower ++ js "\b".

Definition cleaned (lowerText : str) : str :=
  trim (collapse_spaces (remove_punct lowerText)).

Definition word_hits (lowerText cleanText : str) (word : str) : outcome bool :=
  let wordLower := toLowerCase (trim word) in
  if is_empty wordLower then Ok false
  else
    pattern <- Regex.RegExp_new (word_pattern wordLower) true ;;
    Ok (Regex.test pattern lowerText || Regex.test pattern cleanText).

Definition containsBadWords (badWords : list str) (text : option str)
  : outcome bool :=
  match text with
  | None => Ok false
  | Some [] => Ok false
  | Some t =>
      let lowerText := toLowerCase t in
      let cleanText := cleaned lowerText in
      some (word_hits lowerText cleanText) badWords
  end.

(** ** The file-type validator (server.js, lines 91-95)

    [path.extname] is Node's POSIX implementation: one pass from the end of
    the path, skipping trailing slashes, up to the slash that starts the
    last path segment. *)

Module Path.

Record scan := mkScan {
  startDot : Z;
  startPart : Z;
  end_ : Z;
  matchedSlash : bool;
  preDotState : Z
}.

Definition scan0 : scan := mkScan (-1) 0 (-1) true 0.

(** The loop [for (let i = path.length - 1; i >= 0; --i)]: [rpath] holds
    the characters at the indices [i], [i-1], ..., [0], in that order. *)
Fixpoint extname_loop (rpath : str) (i : Z) (st : scan) : scan :=
  match rpath with
  | [] => st
  | c :: r =>
      if (c =? "/")%char then
        if negb (matchedSlash st) then
          (* the slash before the last segment: stop *)
          mkScan (startDot st) (i + 1) (end_ st) (matchedSlash st)
                 (preDotState st)
        else extname_loop r (i - 1) st
      else
        let st1 :=
          if (end_ st =? -1)%Z then
            mkScan (startDot st) (startPart st) (i + 1) false (preDotState st)
          else st in
        let st2 :=
          if (c =? ".")%char then
            if (startDot st1 =? -1)%Z then
              mkScan i (startPart st1) (end_ st1) (matchedSlash st1)
                     (preDotState st1)
            else if negb (preDotState st1 =? 1)%Z then
              mkScan (startDot st1) (startPart st1) (end_ st1)
                     (matchedSlash st1) 1
            else st1
          else if negb (startDot st1 =? -1)%Z then
            mkScan (startDot st1) (startPart st1) (end_ st1)
                   (matchedSlash st1) (-1)
          else st1 in
        extname_loop r (i - 1) st2
  end.

(** [path.slice(a, b)] for [0 <= a <= b <= path.length]. *)
Definition slice (path : str) (a b : Z) : str :=
  firstn (Z.to_nat (b - a)) (skipn (Z.to_nat a) path).

Definition extname (path : str) : str :=
  let st := extname_loop (rev path) (Z.of_nat (length path) - 1) scan0 in
  if (startDot st =? -1)%Z
     || (end_ st =? -1)%Z
     || (preDotState st =? 0)%Z
     || ((preDotState st =? 1)%Z
         && (startDot st =? end_ st - 1)%Z
         && (startDot st =? startPart st + 1)%Z)
  then []
  else slice path (startDot st) (end_ st).

End Path.

Definition validExtensions : list str :=
  [js ".pdf"; js ".doc"; js ".docx"; js ".txt"].

Definition validImageExtensions : list str :=
  [js ".webp"; js ".png"; js ".jpeg"; js ".jpg"].

Definition isValidFileType (url : str) : bool :=
  let extension := toLowerCase (Path.extname url) in
  includes validExtensions extension.

(** The test of lines 174-176 on a thumbnail URL. *)
Definition isValidThumbnail (thumbnailUrl : str) : bool :=
  let thumbnailExtension := toLowerCase (Path.extname thumbnailUrl) in
  includes validImageExtensions thumbnailExtension.

(** ** The record store (server.js, lines 53-65)

    The collection is the list of its documents in insertion order. No
    handler deletes a document, so a document's position identifies it as
    its [_id] does. The store is taken to be reachable; a lost connection
    is outside the model. Likes are natural numbers, on which the addition
    of doubles is exact below 2^53. *)

Record Pattern := mkPattern {
  patternUrl : str;
  patternName : str;
  authorName : str;
  description : str;
  slug : str;
  dateUploaded : N;
  thumbnailUrl : option str;
  likes : option N
}.

Definition store := list Pattern.

Definition has_slug (s : str) (p : Pattern) : bool := str_eqb (slug p) s.

(** [Pattern.findOne({ slug })]: the first document with that slug, with
    its position. *)
Fixpoint findOne_from (s : str) (i : nat) (db : store)
  : option (nat * Pattern) :=
  match db with
  | [] => None
  | p :: r => if has_slug s p then Some (i, p) else findOne_from s (S i) r
  end.

Definition findOne (s : str) (db : store) : option (nat * Pattern) :=
  findOne_from s 0 db.

(** [save()] of a new document; the unique index on [slug] refuses a
    second document with the same slug. *)
Definition save_new (p : Pattern) (db : store) : outcome store :=
  if existsb (has_slug (slug p)) db then Throw DuplicateKey
  else Ok (db ++ [p]).

(** [save()] of a document loaded from position [i]. *)
Fixpoint save_at (i : nat) (p : Pattern) (db : store) : store :=
  match db, i with
  | [], _ => []
  | _ :: r, 0 => p :: r
  | q :: r, S j => q :: save_at j p r
  end.

(** [.sort({ dateUploaded: -1 })], by insertion. *)
Fixpoint insert_by_date (p : Pattern) (l : list Pattern) : list Pattern :=
  match l with
  | [] => [p]
  | q :: r =>
      if (dateUploaded q <=? dateUploaded p)%N then p :: l
      else q :: insert_by_date p r
  end.

Definition sort_newest_first (l : list Pattern) : list Pattern :=
  fold_right insert_by_date [] l.

(** ** The handlers (server.js, lines 102-219) *)

Inductive body :=
| Error (msg : string)
| Message (msg : string)
| Doc (p : Pattern)
| Docs (l : list Pattern)
| Likes (n : N).

Record response := mkResponse { status : nat; payload : body }.

Definition reply (code : nat) (b : body) (db : store)
  : outcome (response * store) :=
  Ok (mkResponse code b, db).

(** [try { ... } catch (error) { res.status(500).json(...) }]. Every
    handler writes in its last statement only, so a throw leaves the store
    as the handler found it. *)
Definition catch (db : store) (m : outcome (response * store))
  : outcome (response * store) :=
  match m with
  | Throw _ => reply 500 (Error "Server error") db
  | _ => m
  end.

(** [GET /pattern/:slug]. *)
Definition get_pattern (s : str) (db : store) : outcome (response * store) :=
  catch db
    match findOne s db with
    | None => reply 404 (Error "Pattern not found") db
    | Some (_, pattern) => reply 200 (Doc pattern) db
    end.

Definition search_hit (searchRegex : Regex.RegExp) (p : Pattern) : bool :=
  Regex.test searchRegex (patternName p)
  || Regex.test searchRegex (authorName p)
  || Regex.test searchRegex (description p).

(** [GET /search?q=]. *)
Definition search (q : option str) (db : store) : outcome (response * store) :=
  catch db
    match q with
    | Some ((_ :: _) as query) =>
        searchRegex <- Regex.RegExp_new query true ;;
        let patterns := sort_newest_first (filter (search_hit searchRegex) db) in
        reply 200 (Docs patterns) db
    | _ => reply 400 (Error "Search query is required") db
    end.

(** The JSON body of [POST /upload]; a field is a string or absent. *)
Record upload_body := mkUpload {
  req_patternUrl : option str;
  req_patternName : option str;
  req_authorName : option str;
  req_description : option str;
  req_slug : option str;
  req_thumbnailUrl : option str
}.

Definition string_of (v : option str) : str :=
  match v with
  | Some s => s
  | None => []
  end.

Definition missing_field (req : upload_body) : bool :=
  negb (truthy (req_patternUrl req))
  || negb (truthy (req_patternName req))
  || negb (truthy (req_authorName req))
  || negb (truthy (req_description req))
  || negb (truthy (req_slug req)).

(** The condition of lines 160-163. *)
Definition bad_language (badWords : list str) (req : upload_body)
  : outcome bool :=
  orelse (containsBadWords badWords (req_patternUrl req))
    (orelse (containsBadWords badWords (req_patternName req))
       (orelse (containsBadWords badWords (req_authorName req))
          (containsBadWords badWords (req_description req)))).

Definition bad_thumbnail (req : upload_body) : bool :=
  truthy (req_thumbnailUrl req)
  && negb (isValidThumbnail (string_of (req_thumbnailUrl req))).

Definition new_pattern (now : N) (req : upload_body) : Pattern :=
  mkPattern (string_of (req_patternUrl req))
            (string_of (req_patternName req))
            (string_of (req_authorName req))
            (string_of (req_description req))
            (string_of (req_slug req))
            now
            (req_thumbnailUrl req)
            (Some 0%N).

Definition msg_required : string :=
  "Pattern URL, name, author name, and description are required".
Definition msg_exists : string :=
  "This pattern ID already exists. Please try again.".
Definition msg_language : string := "Inappropriate Language Detected".
Definition msg_file_type : string :=
  "Invalid file type. Only PDF, DOC, DOCX, and TXT files are allowed.".
Definition msg_thumbnail : string :=
  "Invalid thumbnail file type. Only .webp, .png, .jpeg, and .jpg are allowed.".

(** [POST /upload]; [now] is the reading of [Date.now] that dates the new
    document. *)
Definition upload (badWords : list str) (now : N) (req : upload_body)
    (db : store) : outcome (response * store) :=
  catch db
    (if missing_field req then reply 400 (Error msg_required) db
     else
       match findOne (string_of (req_slug req)) db with
       | Some _ => reply 400 (Error msg_exists) db
       | None =>
           bad <- bad_language badWords req ;;
           if bad then reply 400 (Error msg_language) db
           else if negb (isValidFileType (string_of (req_patternUrl req)))
           then reply 400 (Error msg_file_type) db
           else if bad_thumbnail req
           then reply 400 (Error msg_thumbnail) db
           else
             db' <- save_new (new_pattern now req) db ;;
             reply 201 (Message "Pattern uploaded successfully") db'
       end).

(** [pattern.likes || 0]. *)
Definition likes_or_zero (l : option N) : N :=
  match l with
  | Some n => if (n =? 0)%N then 0%N else n
  | None => 0%N
  end.

Definition set_likes (p : Pattern) (n : N) : Pattern :=
  mkPattern (patternUrl p) (patternName p) (authorName p) (description p)
            (slug p) (dateUploaded p) (thumbnailUrl p) (Some n).

(** [POST /like/:slug]. *)
Definition like (s : str) (db : store) : outcome (response * store) :=
  catch db
    match findOne s db with
    | None => reply 404 (Error "Pattern not found") db
    | Some (i, pattern) =>
        let pattern' := set_likes pattern (likes_or_zero (likes pattern) + 1) in
        let db' := save_at i pattern' db in
        reply 200 (Likes (likes_or_zero (likes pattern) + 1)) db'
    end.

(** ** The properties the specification states, in its own words *)

(** The characters with a meaning in a pattern: [^ $ \ . * + ? ( ) [ ] { } |]. *)
Definition syntax_characters : str := js "^$\.*+?()[]{}|".

Definition plain_char (c : ascii) : bool :=
  negb (existsb (Ascii.eqb c) syntax_characters).

(** A string that holds no syntax character stands for itself as a
    pattern. *)
Definition plain (w : str) : bool := forallb plain_char w.

(** The form in which the filter uses the line [word] of the list. *)
Definition term_of (word : str) : str := toLowerCase (trim word).

(** Two strings that are equal up to the case of their letters. *)
Definition same_ci (a b : str) : Prop := toLowerCase a = toLowerCase b.



Definition ends_with_word (l : str) : bool :=
  match rev l with
  | [] => false
  | c :: _ => is_word c
  end.

Definition starts_with_word (r : str) : bool :=
  match r with
  | [] => false
  | c :: _ => is_word c
  end.

(** A word boundary lies between [l] and [r] when exactly one of the two
    characters next to the cut is a word character. *)
Definition word_boundary (l r : str) : bool :=
  xorb (ends_with_word l) (starts_with_word r).

(** [w] matches in [t] as a whole word, in any capitalization, with a word
    boundary on both sides. *)
Definition whole_word_match (w t : str) : Prop :=
  exists pre m post,
    t = pre ++ m ++ post /\ same_ci m w
    /\ word_boundary pre (m ++ post) = true
    /\ word_boundary (pre ++ m) post = true.

(** [w] occurs in [t] as a standalone word, in any capitalization: what is
    next to it on either side is a non-word character or the end of the
    string. *)
Definition standalone (w t : str) : Prop :=
  exists pre m post,
    t = pre ++ m ++ post /\ same_ci m w
    /\ ends_with_word pre = false /\ starts_with_word post = false.

(** [t] contains [q] as a substring, in any capitalization. *)
Definition contains_ci (q t : str) : Prop :=
  exists pre m post, t = pre ++ m ++ post /\ same_ci m q.

Fixpoint prefix_ci (q t : str) : bool :=
  match q, t with
  | [], _ => true
  | c :: q', x :: t' =>
      (toLowerCase_char c =? toLowerCase_char x)%char && prefix_ci q' t'
  | _ :: _, [] => false
  end.

Fixpoint contains_cib (q t : str) : bool :=
  prefix_ci q t
  || match t with
     | [] => false
     | _ :: t' => contains_cib q t'
     end.

(** The record matches the query [q] in one of its three text fields. *)
Definition record_contains (q : str) (p : Pattern) : bool :=
  contains_cib q (patternName p)
  || contains_cib q (authorName p)
  || contains_cib q (description p).

Definition newest_first (l : list Pattern) : Prop :=
  StronglySorted (fun a b => (dateUploaded b <= dateUploaded a)%N) l.

(** The extension as the specification words it: the part of the URL from
    its final ['.'] on, and nothing when the URL has no ['.']. *)
Fixpoint from_final_dot (url : str) : option str :=
  match url with
  | [] => None
  | c :: r =>
      match from_final_dot r with
      | Some e => Some e
      | None => if (c =? ".")%char then Some url else None
      end
  end.

Definition spec_extension (url : str) : str :=
  match from_final_dot url with
  | Some e => toLowerCase e
  | None => []
  end.

(** The slugs of the stored records are pairwise different, as the unique
    index on [slug] keeps them. *)
Definition unique_slugs (db : store) : Prop := NoDup (map slug db).

(** The validation checks of [POST /upload], in the order the handler runs
    them. *)
Inductive check := Required | UniqueSlug | Language | FileType | Thumbnail.


Definition message (c : check) : string :=
  match c with
  | Required => msg_required
  | UniqueSlug => msg_exists
  | Language => msg_language
  | FileType => msg_file_type
  | Thumbnail => msg_thumbnail
  end.

Definition slug_stored (s : str) (db : store) : Prop :=
  exists p, In p db /\ slug p = s.


Definition rejection (c : check) : response :=
  mkResponse 400 (Error (message c)).

(** The store in which every record of slug [s] is replaced by [p']. *)
Definition replace_slug (s : str) (p' : Pattern) (db : store) : store :=
  map (fun q => if has_slug s q then p' else q) db.

(** One of the five required fields is the empty string. *)
Definition empty_field (req : upload_body) : Prop :=
  req_patternUrl req = Some [] \/ req_patternName req = Some []
  \/ req_authorName req = Some [] \/ req_description req = Some []
  \/ req_slug req = Some [].

Definition server_error : response := mkResponse 500 (Error "Server error").

(** Sample data: the record and the request of the specification's
    example, and variations of the request. *)
Definition highland_reel : Pattern :=
  mkPattern (js "a.pdf") (js "Highland Reel") (js "A") (js "trad tune")
            (js "s1") 1 None (Some 0%N).

Definition request (url name author descr slug : string) : upload_body :=
  mkUpload (Some (js url)) (Some (js name)) (Some (js author))
           (Some (js descr)) (Some (js slug)) None.




(** The syntax tree of a pattern that spells out the characters [w] and
    goes on as [k], and the tree of [\bw\b]. *)
Definition literal (w : str) (k : Regex.regex) : Regex.regex :=
  fold_right Regex.RSeq k (map Regex.RChar w).

Definition word_regex (w : str) : Regex.regex :=
  Regex.RSeq (Regex.RAssert Regex.AWordB)
    (literal w (Regex.RSeq (Regex.RAssert Regex.AWordB) Regex.REmpty)).

(** [t] starts with the characters of [w], compared as the pattern
    compares them. *)
Fixpoint prefix_match (ic : bool) (w t : str) : bool :=
  match w, t with
  | [], _ => true
  | c :: w', x :: t' => Regex.char_matches ic c x && prefix_match ic w' t'
  | _ :: _, [] => false
  end.

(** Every line of the word list gives a term without syntax characters. *)
Definition plain_list (badWords : list str) : Prop :=
  Forall (fun word => plain (term_of word) = true) badWords.

(** The line [word] of the list blocks the text [t]: its term is not empty
    and matches as a whole word in the lowered text or in the variant of
    it without punctuation. *)
Definition blocks (t : str) (word : str) : Prop :=
  term_of word <> []
  /\ (whole_word_match (term_of word) (toLowerCase t)
      \/ whole_word_match (term_of word) (cleaned (toLowerCase t))).

(** What the specification says of the filter's result [b]. *)
Definition filter_spec (badWords : list str) (text : option str) (b : bool)
  : Prop :=
  b = true
  <-> exists t, text = Some t /\ t <> []
                /\ exists word, In word badWords /\ blocks t word.

Definition hits (lowerText cleanText : str) (word : str) : bool :=
  negb (is_empty (term_of word))
  && (Regex.test (Regex.mkRegExp (word_regex (term_of word)) true) lowerText
      || Regex.test (Regex.mkRegExp (word_regex (term_of word)) true) cleanText).

(** A term that begins and ends with a word character. *)
Definition word_edged (w : str) : Prop :=
  starts_with_word w = true /\ ends_with_word w = true.

(** [w] occurs in [t], but only as a part of larger words. *)
Definition inside_words_only (w t : str) : Prop :=
  contains_ci w t /\ ~ standalone w t.

Definition standalone_at (w t : str) (i : nat) : bool :=
  negb (Regex.word_before t i)
  && prefix_ci w (skipn i t)
  && negb (Regex.word_at t (i + length w)).

Definition standaloneb (w t : str) : bool :=
  existsb (standalone_at w t) (seq 0 (S (length t))).

(** What the specification says of the list [l] that a search for [q]
    returns from the store [db]: the records of [db] that hold [q] in one
    of the three text fields, each as often as it is stored, newest
    first. *)
Definition search_spec (q : str) (db : store) (l : list Pattern) : Prop :=
  Permutation l (filter (record_contains q) db)
  /\ (forall p, In p l <-> In p db /\ record_contains q p = true)
  /\ newest_first l.

Definition query_required : response :=
  mkResponse 400 (Error "Search query is required").

(** What one round of the loop of [extname] does to the scan at a
    character [c] of index [i] that is not a slash. *)
Definition visit (c : ascii) (i : Z) (st : Path.scan) : Path.scan :=
  let st1 :=
    if (Path.end_ st =? -1)%Z then
      Path.mkScan (Path.startDot st) (Path.startPart st) (i + 1) false
                  (Path.preDotState st)
    else st in
  if (c =? ".")%char then
    if (Path.startDot st1 =? -1)%Z then
      Path.mkScan i (Path.startPart st1) (Path.end_ st1)
                  (Path.matchedSlash st1) (Path.preDotState st1)
    else if negb (Path.preDotState st1 =? 1)%Z then
      Path.mkScan (Path.startDot st1) (Path.startPart st1) (Path.end_ st1)
                  (Path.matchedSlash st1) 1
    else st1
  else if negb (Path.startDot st1 =? -1)%Z then
    Path.mkScan (Path.startDot st1) (Path.startPart st1) (Path.end_ st1)
                (Path.matchedSlash st1) (-1)
  else st1.

(** The loop on the reversed prefix [r] of a path: the index of the first
    character of [r] is the number of characters after it in [r]. *)
Definition run (r : str) (st : Path.scan) : Path.scan :=
  Path.extname_loop r (Z.of_nat (length r) - 1) st.

Definition no_slash (s : str) : bool :=
  forallb (fun c => negb (c =? "/")%char) s.

Definition no_dot (s : str) : bool :=
  forallb (fun c => negb (c =? ".")%char) s.

Definition ends_with_slash (s : str) : bool :=
  match rev s with
  | [] => false
  | c :: _ => (c =? "/")%char
  end.

Definition slashes (k : nat) : str := repeat "/"%char k.

(** The URL reads [stem ++ e ++ slashes k]: an extension [e] that is, in
    lower case, one of [exts], after a stem that is not empty and does not
    end in a slash, and before any number of slashes. *)
Definition has_extension (exts : list str) (url : str) : Prop :=
  exists stem e k,
    url = stem ++ e ++ slashes k
    /\ In (toLowerCase e) exts
    /\ stem <> [] /\ ends_with_slash stem = false.

(** The validator as the specification words it. *)
Definition spec_valid (exts : list str) (url : str) : bool :=
  includes exts (spec_extension url).

(** The scan between the end of the segment and its last dot. *)
Definition in_ext (e : Z) : Path.scan := Path.mkScan (-1) 0 e false 0.

(** The scan left of the last dot [d] of the segment. *)
Definition in_base (d e p : Z) : Path.scan := Path.mkScan d 0 e false p.

(** The state of the characters left of the dot, after the reversed base
    [rbase]: 0 when there is none, 1 when the leftmost is a dot, -1
    otherwise. *)
Definition base_state (p : Z) (rbase : str) : Z :=
  match rev rbase with
  | [] => p
  | c :: _ => if (c =? ".")%char then 1%Z else (-1)%Z
  end.

(** An extension of the allow-lists: a dot, then at least one character,
    none of them a dot or a slash. *)
Definition proper_extension (x : str) : Prop :=
  exists y, x = "."%char :: y /\ y <> [] /\ no_slash y = true
            /\ no_dot y = true.


(** The run of the specification's example on an empty store: create,
    fetch, like, create again. *)
Definition example_run (badWords : list str) (now later : N)
    (req : upload_body) : Prop :=
  let p := new_pattern now req in
  let p' := set_likes p 1 in
  upload badWords now req []
  = Ok (mkResponse 201 (Message "Pattern uploaded successfully"), [p])
  /\ get_pattern (slug p) [p] = Ok (mkResponse 200 (Doc p), [p])
  /\ likes p = Some 0%N
  /\ like (slug p) [p] = Ok (mkResponse 200 (Likes 1), [p'])
  /\ upload badWords later req [p'] = Ok (rejection UniqueSlug, [p']).

(** The matches of a pattern, stated as rules: [matches ic s r i j] says
    that [r] matches the characters of [s] from position [i] up to
    position [j]. *)
Inductive matches (ic : bool) (s : str) : Regex.regex -> nat -> nat -> Prop :=
| M_empty i : matches ic s Regex.REmpty i i
| M_char c x i :
    nth_error s i = Some x -> Regex.char_matches ic c x = true ->
    matches ic s (Regex.RChar c) i (S i)
| M_any x i :
    nth_error s i = Some x -> is_line_terminator x = false ->
    matches ic s Regex.RAny i (S i)
| M_class n k x i :
    nth_error s i = Some x -> xorb n (Regex.class_matches k x) = true ->
    matches ic s (Regex.RClass n k) i (S i)
| M_assert a i :
    Regex.assertion_holds a s i = true -> matches ic s (Regex.RAssert a) i i
| M_seq a b i j k :
    matches ic s a i j -> matches ic s b j k ->
    matches ic s (Regex.RSeq a b) i k
| M_alt_l a b i j : matches ic s a i j -> matches ic s (Regex.RAlt a b) i j
| M_alt_r a b i j : matches ic s b i j -> matches ic s (Regex.RAlt a b) i j
| M_star_stop a i : matches ic s (Regex.RStar a) i i
| M_star_step a i j k :
    matches ic s a i j -> matches ic s (Regex.RStar a) j k ->
    matches ic s (Regex.RStar a) i k
| M_plus a i j k :
    matches ic s a i j -> matches ic s (Regex.RStar a) j k ->
    matches ic s (Regex.RPlus a) i k
| M_opt_skip a i : matches ic s (Regex.ROpt a) i i
| M_opt_take a i j : matches ic s a i j -> matches ic s (Regex.ROpt a) i j.

(** [q] is reached from [p] in [n] rounds of [step]. *)
Inductive rounds (step : nat -> list nat) : nat -> nat -> nat -> Prop :=
| rounds_0 p : rounds step 0 p p
| rounds_S n p p' q :
    In p' (step p) -> rounds step n p' q -> rounds step (S n) p q.



(** The quantifier characters of patterns. *)
Definition quantifier_char (c : ascii) : bool :=
  (c =? "*")%char || (c =? "+")%char || (c =? "?")%char.

(** The record without its like count. *)
Definition without_likes (p : Pattern) : Pattern := set_likes p 0.

(** What holds of the answer of a search, whatever the query is. *)
Definition search_answer_sound (db : store) (resp : response) : Prop :=
  status resp = 200 ->
  exists l keep,
    payload resp = Docs l
    /\ Permutation l (filter keep db)
    /\ (forall p, In p l -> In p db)
    /\ newest_first l.

Definition starts_with_space (s : str) : bool :=
  match s with
  | [] => false
  | c :: _ => is_space c
  end.

Definition ends_with_space (s : str) : bool := starts_with_space (rev s).

Definition no_punct (s : str) : bool := forallb (fun c => negb (is_punct c)) s.

(** Every white-space character of [s] is a space that no white space
    follows. *)
Fixpoint single_spaced (s : str) : bool :=
  match s with
  | [] => true
  | c :: r =>
      (if is_space c then (c =? " ")%char && negb (starts_with_space r)
       else true)
      && single_spaced r
  end.

(** The form of the text the filter matches against besides the lowered
    text: no character of the punctuation set, no white space at either
    end, white space only as single spaces. *)
Definition normal_form (s : str) : Prop :=
  no_punct s = true /\ single_spaced s = true
  /\ starts_with_space s = false /\ ends_with_space s = false.

(** The carriage return that a file with CRLF line ends leaves at the end
    of its lines. *)
Definition carriage_return : ascii := ascii_of_N 13.

Definition no_space (s : str) : bool := forallb (fun c => negb (is_space c)) s.

(** The white-space state of [collapse_from] after the characters [p],
    entered in the state [b]. *)
Definition run_after (b : bool) (p : str) : bool :=
  match rev p with
  | [] => b
  | c :: _ => is_space c
  end.

Definition newline : ascii := ascii_of_N 10.

(** The text of a file with the lines [ls]: the lines with a line feed
    between them. *)
Fixpoint join_lines (ls : list str) : str :=
  match ls with
  | [] => []
  | [l] => l
  | l :: rest => l ++ newline :: join_lines rest
  end.

Definition no_newline (s : str) : bool :=
  forallb (fun c => negb (c =? newline)%char) s.

Definition not_blank (word : str) : bool := negb (is_empty (trim word)).

(** ** The origin check of the CORS options (server.js, lines 233-248) *)

Definition allowedOrigins : list str :=
  [js "https://treble.top"; js "https://treble-yo.vercel.app";
   js "http://localhost:3000"].

(** [corsOptions.origin]: [true] stands for [callback(null, true)], [false]
    for the callback with the error. A request without an Origin header is
    let through. *)
Definition origin_allowed (origin : option str) : bool :=
  if negb (truthy origin) then true
  else includes allowedOrigins (string_of origin).


Definition created : response :=
  mkResponse 201 (Message "Pattern uploaded successfully").

Definition contains_either (a b : str) (p : Pattern) : bool :=
  record_contains a p || record_contains b p.

(** * Proofs *)

(** ** Strings and outcomes *)

Lemma str_eqb_eq (a b : str) : str_eqb a b = true <-> a = b.
Proof.
  unfold str_eqb. destruct (list_eq_dec ascii_dec a b); split; congruence.
Qed.

Lemma str_eqb_refl (a : str) : str_eqb a a = true.
Proof. now apply str_eqb_eq. Qed.

Lemma str_eqb_neq (a b : str) : str_eqb a b = false <-> a <> b.
Proof.
  unfold str_eqb. destruct (list_eq_dec ascii_dec a b); split; congruence.
Qed.

Lemma truthy_Some (v : option str) :
  truthy v = true -> exists c s, v = Some (c :: s).
Proof.
  destruct v as [[|c s]|]; simpl; try discriminate. intros _. now exists c, s.
Qed.


(** ** The record store *)

Section Store.

Lemma has_slug_true (s : str) (p : Pattern) : has_slug s p = true <-> slug p = s.
Proof. apply str_eqb_eq. Qed.

Lemma has_slug_false (s : str) (p : Pattern) :
  has_slug s p = false <-> slug p <> s.
Proof. apply str_eqb_neq. Qed.

Lemma findOne_from_None (s : str) (db : store) (k : nat) :
  findOne_from s k db = None <-> ~ slug_stored s db.
Proof.
  revert k. induction db as [|q r IH]; intros k; simpl.
  - split; [intros _ (p & [] & _) | reflexivity].
  - destruct (has_slug s q) eqn:E.
    + split; [discriminate|]. intros H. exfalso. apply H.
      exists q. split; [now left | now apply has_slug_true].
    + rewrite IH. apply has_slug_false in E. split.
      * intros H (p & [<- | Hp] & Hs); [congruence|].
        apply H. now exists p.
      * intros H (p & Hp & Hs). apply H. exists p. split; [now right | easy].
Qed.

Lemma findOne_None (s : str) (db : store) :
  findOne s db = None <-> ~ slug_stored s db.
Proof. apply findOne_from_None. Qed.

Lemma findOne_stored (s : str) (db : store) :
  slug_stored s db -> exists ip, findOne s db = Some ip.
Proof.
  intros H. destruct (findOne s db) as [ip|] eqn:E; [now exists ip|].
  apply findOne_None in E. contradiction.
Qed.


Lemma existsb_has_slug (s : str) (db : store) :
  existsb (has_slug s) db = true <-> slug_stored s db.
Proof.
  rewrite existsb_exists. unfold slug_stored.
  split; intros (p & Hp & Hs); exists p; (split; [easy | now apply has_slug_true]).
Qed.

Lemma save_new_fresh (p : Pattern) (db : store) :
  ~ slug_stored (slug p) db -> save_new p db = Ok (db ++ [p]).
Proof.
  intros H. unfold save_new.
  destruct (existsb (has_slug (slug p)) db) eqn:E; [|reflexivity].
  apply existsb_has_slug in E. contradiction.
Qed.



Lemma replace_slug_absent (s : str) (p' : Pattern) (db : store) :
  ~ In s (map slug db) -> replace_slug s p' db = db.
Proof.
  induction db as [|q r IH]; simpl; intros H; [reflexivity|].
  destruct (has_slug s q) eqn:E.
  - apply has_slug_true in E. exfalso. apply H. now left.
  - f_equal. apply IH. intros X. apply H. now right.
Qed.

(** With unique slugs, the record [findOne] loads is the stored record of
    that slug, and saving it replaces that record and no other. *)
Lemma findOne_from_unique (p p' : Pattern) (db : store) (k : nat) :
  unique_slugs db -> In p db ->
  exists i, findOne_from (slug p) k db = Some (k + i, p)
            /\ save_at i p' db = replace_slug (slug p) p' db.
Proof.
  unfold unique_slugs. revert k.
  induction db as [|q r IH]; intros k U Hin; [easy|].
  simpl in U. inversion U as [|? ? Hnot Hr]; subst.
  simpl. destruct Hin as [-> | Hin].
  - unfold has_slug at 1 2. rewrite str_eqb_refl. exists 0. split.
    + now rewrite Nat.add_0_r.
    + simpl. f_equal. symmetry. now apply replace_slug_absent.
  - destruct (has_slug (slug p) q) eqn:E.
    + apply has_slug_true in E. exfalso. apply Hnot. rewrite E.
      now apply in_map.
    + destruct (IH (S k) Hr Hin) as (i & Hf & Hs).
      exists (S i). split.
      * rewrite Hf. f_equal. f_equal. lia.
      * simpl. now rewrite Hs.
Qed.



End Store.

(** ** The upload handler *)

Section Upload.

Variable badWords : list str.
Variable now : N.

Lemma empty_field_missing (req : upload_body) :
  empty_field req -> missing_field req = true.
Proof.
  unfold empty_field, missing_field.
  intros [H | [H | [H | [H | H]]]]; rewrite H; simpl;
    repeat rewrite orb_true_r; reflexivity.
Qed.

Lemma upload_missing (req : upload_body) (db : store) :
  missing_field req = true ->
  upload badWords now req db = Ok (rejection Required, db).
Proof. intros H. unfold upload. now rewrite H. Qed.

Lemma upload_duplicate (req : upload_body) (db : store) :
  missing_field req = false ->
  slug_stored (string_of (req_slug req)) db ->
  upload badWords now req db = Ok (rejection UniqueSlug, db).
Proof.
  intros M S. unfold upload. rewrite M.
  destruct (findOne_stored _ _ S) as (ip & ->). reflexivity.
Qed.

Lemma upload_checked (req : upload_body) (db : store) :
  missing_field req = false ->
  ~ slug_stored (string_of (req_slug req)) db ->
  upload badWords now req db =
  catch db
    (bad <- bad_language badWords req ;;
     if bad then reply 400 (Error msg_language) db
     else if negb (isValidFileType (string_of (req_patternUrl req)))
     then reply 400 (Error msg_file_type) db
     else if bad_thumbnail req then reply 400 (Error msg_thumbnail) db
     else reply 201 (Message "Pattern uploaded successfully")
                (db ++ [new_pattern now req])).
Proof.
  intros M S. unfold upload. rewrite M.
  apply findOne_None in S as F. rewrite F.
  rewrite (save_new_fresh (new_pattern now req) db) by exact S.
  reflexivity.
Qed.

(** A request that passes every check is stored, dated [now] and with no
    likes, after the records already there. *)
Lemma upload_accepts (req : upload_body) (db : store) :
  missing_field req = false ->
  ~ slug_stored (string_of (req_slug req)) db ->
  bad_language badWords req = Ok false ->
  isValidFileType (string_of (req_patternUrl req)) = true ->
  bad_thumbnail req = false ->
  upload badWords now req db =
  Ok (mkResponse 201 (Message "Pattern uploaded successfully"),
      db ++ [new_pattern now req]).
Proof.
  intros M S L F T. rewrite upload_checked by assumption.
  rewrite L. simpl. now rewrite F, T.
Qed.

(** The store changes only with the answer 201. *)
Lemma upload_writes_only_on_201 (req : upload_body) (db db' : store) resp :
  upload badWords now req db = Ok (resp, db') ->
  status resp <> 201 -> db' = db.
Proof.
  unfold upload. intros H N.
  destruct (missing_field req); [now inversion H|].
  destruct (findOne _ db); [now inversion H|].
  destruct (bad_language badWords req) as [[|]|e|]; simpl in H;
    try (now inversion H).
  destruct (negb (isValidFileType _)); [now inversion H|].
  destruct (bad_thumbnail req); [now inversion H|].
  destruct (save_new _ db); simpl in H; inversion H; subst.
  - now contradiction N.
  - reflexivity.
Qed.


End Upload.

(** C10. The required-field check counts the empty string as missing: a
    request in which one of the five required fields is the empty string
    gets the missing-field rejection (400), whatever the word list and the
    store are, since no other check runs before it. *)
Theorem upload_empty_field_rejected (badWords : list str) (now : N)
    (req : upload_body) (db : store) :
  empty_field req ->
  upload badWords now req db = Ok (rejection Required, db).
Proof. intros H. apply upload_missing. now apply empty_field_missing. Qed.

Lemma upload_empty_field_rejected_witness :
  upload [js "("] 7 (request "a.pdf" "Highland Reel" "A" "trad tune" "")
         [highland_reel]
  = Ok (rejection Required, [highland_reel]).
Proof.
  apply upload_empty_field_rejected. unfold empty_field. simpl. tauto.
Defined.

(** C5, as stated, fails: a request whose slug is that of a stored record
    but which lacks a required field gets the missing-field rejection, not
    the duplicate-slug one. *)
Lemma duplicate_slug_with_missing_field :
  let req := mkUpload (Some (js "b.pdf")) None (Some (js "B"))
                      (Some (js "another tune")) (Some (js "s1")) None in
  slug_stored (string_of (req_slug req)) [highland_reel]
  /\ upload [] 2 req [highland_reel] = Ok (rejection Required, [highland_reel])
  /\ rejection Required <> rejection UniqueSlug.
Proof.
  simpl. split; [|split].
  - exists highland_reel. split; [now left | reflexivity].
  - reflexivity.
  - discriminate.
Qed.

(** C5, amended. A request that supplies the five required fields and
    whose slug is the slug of a stored record gets the duplicate-slug
    rejection (400) and the store is unchanged, whatever its other fields,
    the word list and the time are. *)
Theorem upload_duplicate_slug_rejected (badWords : list str) (now : N)
    (req : upload_body) (db : store) :
  missing_field req = false ->
  slug_stored (string_of (req_slug req)) db ->
  upload badWords now req db = Ok (rejection UniqueSlug, db).
Proof. apply upload_duplicate. Qed.

Lemma upload_duplicate_slug_rejected_witness :
  upload [js "ass"] 2 (request "b.exe" "ass" "B" "another tune" "s1")
         [highland_reel]
  = Ok (rejection UniqueSlug, [highland_reel]).
Proof.
  apply upload_duplicate_slug_rejected.
  - reflexivity.
  - exists highland_reel. split; [now left | reflexivity].
Defined.



(** C9, as stated, fails: a request whose patternUrl holds a blocked term
    and whose slug is already stored gets the duplicate-slug rejection, not
    the blocked-term one. *)
Lemma blocked_url_with_stored_slug :
  let req := request "http://x.org/ass.pdf" "Jig" "B" "another tune" "s1" in
  containsBadWords [js "ass"] (req_patternUrl req) = Ok true
  /\ upload [js "ass"] 2 req [highland_reel]
     = Ok (rejection UniqueSlug, [highland_reel])
  /\ rejection UniqueSlug <> rejection Language.
Proof.
  simpl. split; [|split].
  - vm_compute. reflexivity.
  - vm_compute. reflexivity.
  - discriminate.
Qed.

(** C9, amended. The filter runs on patternUrl: a request that supplies the
    five required fields, whose slug is not stored and whose patternUrl
    holds a blocked term gets the blocked-term rejection (400) and the
    store is unchanged, whatever the three text fields hold. *)
Theorem upload_blocked_url_rejected (badWords : list str) (now : N)
    (req : upload_body) (db : store) :
  missing_field req = false ->
  ~ slug_stored (string_of (req_slug req)) db ->
  containsBadWords badWords (req_patternUrl req) = Ok true ->
  upload badWords now req db = Ok (rejection Language, db).
Proof.
  intros M S B. rewrite upload_checked by assumption.
  unfold bad_language. rewrite B. reflexivity.
Qed.

Lemma upload_blocked_url_rejected_witness :
  upload [js "ass"] 2
    (request "http://x.org/ass.pdf" "Jig" "B" "another tune" "s2")
    [highland_reel]
  = Ok (rejection Language, [highland_reel]).
Proof.
  apply upload_blocked_url_rejected.
  - reflexivity.
  - intros (p & [<- | []] & E). vm_compute in E. discriminate.
  - vm_compute. reflexivity.
Defined.

(** ** The like handler *)






(** ** Characters *)

Ltac each_char c := destruct c as [[] [] [] [] [] [] [] []].

Lemma lower_upper (c : ascii) :
  toLowerCase_char (toUpperCase_char c) = toLowerCase_char c.
Proof. each_char c; reflexivity. Qed.

Lemma upper_lower (c : ascii) :
  toUpperCase_char (toLowerCase_char c) = toUpperCase_char c.
Proof. each_char c; reflexivity. Qed.

Lemma lower_lower (c : ascii) :
  toLowerCase_char (toLowerCase_char c) = toLowerCase_char c.
Proof. each_char c; reflexivity. Qed.

Lemma is_word_lower (c : ascii) : is_word (toLowerCase_char c) = is_word c.
Proof. each_char c; reflexivity. Qed.

Lemma is_space_lower (c : ascii) : is_space (toLowerCase_char c) = is_space c.
Proof. each_char c; reflexivity. Qed.

Lemma plain_char_lower (c : ascii) :
  plain_char (toLowerCase_char c) = plain_char c.
Proof. each_char c; reflexivity. Qed.

(** Comparing the upper-case forms, as the pattern matcher does, is
    comparing the lower-case forms. *)
Lemma same_upper_same_lower (a b : ascii) :
  toUpperCase_char a = toUpperCase_char b
  <-> toLowerCase_char a = toLowerCase_char b.
Proof.
  split; intros H.
  - rewrite <- (lower_upper a), <- (lower_upper b). now rewrite H.
  - rewrite <- (upper_lower a), <- (upper_lower b). now rewrite H.
Qed.

Lemma char_matches_ci (c x : ascii) :
  Regex.char_matches true c x
  = (toLowerCase_char c =? toLowerCase_char x)%char.
Proof.
  unfold Regex.char_matches, Regex.Canonicalize.
  destruct (toLowerCase_char c =? toLowerCase_char x)%char eqn:E.
  - apply Ascii.eqb_eq in E. apply Ascii.eqb_eq.
    now apply same_upper_same_lower.
  - apply Ascii.eqb_neq in E. apply Ascii.eqb_neq.
    intros H. apply E. now apply same_upper_same_lower.
Qed.

Lemma toLowerCase_idem (s : str) : toLowerCase (toLowerCase s) = toLowerCase s.
Proof.
  unfold toLowerCase. rewrite map_map. apply map_ext. apply lower_lower.
Qed.

Lemma toLowerCase_app (a b : str) :
  toLowerCase (a ++ b) = toLowerCase a ++ toLowerCase b.
Proof. apply map_app. Qed.

Lemma toLowerCase_length (s : str) : length (toLowerCase s) = length s.
Proof. apply length_map. Qed.

Lemma same_ci_length (a b : str) : same_ci a b -> length a = length b.
Proof.
  unfold same_ci. intros H.
  rewrite <- (toLowerCase_length a), <- (toLowerCase_length b). now rewrite H.
Qed.

(** ** The matcher finds the matches of the rules *)

Module Semantics.
Import Regex.

Lemma closure_sound (step : nat -> list nat) (fuel : nat) (front : list nat)
    (q : nat) :
  In q (closure step fuel front) ->
  exists n p, In p front /\ rounds step n p q.
Proof.
  revert front. induction fuel as [|fuel IH]; intros front H.
  - exists 0, q. split; [exact H | constructor].
  - cbn [closure] in H. apply in_app_or in H as [H | H].
    + exists 0, q. split; [exact H | constructor].
    + apply IH in H as (n & p' & Hp' & R).
      apply nodup_In in Hp'. apply in_flat_map in Hp' as (p & Hp & Hs).
      exists (S n), p. split; [exact Hp | econstructor; eauto].
Qed.

Lemma closure_complete (step : nat -> list nat) (fuel n : nat)
    (front : list nat) (p q : nat) :
  rounds step n p q -> n <= fuel -> In p front ->
  In q (closure step fuel front).
Proof.
  intros R. revert fuel front.
  induction R as [p | n p p' q Hs R IH]; intros fuel front Hn Hp.
  - destruct fuel; cbn [closure]; [exact Hp|].
    apply in_or_app. now left.
  - destruct fuel as [|fuel]; [lia|]. cbn [closure].
    apply in_or_app. right. apply IH; [lia|].
    apply nodup_In. apply in_flat_map. now exists p.
Qed.

(** Rounds that do not move can be left out: what is reached at all is
    reached in no more rounds than the distance. *)
Lemma rounds_short (step : nat -> list nat) (n p q : nat) :
  (forall x y, In y (step x) -> x <= y) ->
  rounds step n p q -> p <= q /\ exists m, m <= q - p /\ rounds step m p q.
Proof.
  intros Mono. induction 1 as [p | n p p' q Hs R (Hle & m & Hm & IH)].
  - split; [lia|]. exists 0. split; [lia | constructor].
  - assert (Hp := Mono _ _ Hs). split; [lia|].
    destruct (Nat.eq_dec p p') as [<- | Hne].
    + exists m. split; [lia | exact IH].
    + exists (S m). split; [lia | econstructor; eauto].
Qed.

Lemma step_char_In (f : ascii -> bool) (s : str) (i j : nat) :
  In j (step_char f s i)
  <-> exists x, nth_error s i = Some x /\ f x = true /\ j = S i.
Proof.
  unfold step_char. destruct (nth_error s i) as [x|].
  - destruct (f x) eqn:E; simpl.
    + split.
      * intros [<- | []]. now exists x.
      * intros (y & Hy & _ & ->). now left.
    + split; [intros [] | intros (y & Hy & Hf & _)].
      inversion Hy. congruence.
  - split; [intros [] | intros (y & Hy & _)]. discriminate.
Qed.

Lemma matches_bounds (ic : bool) (s : str) (r : regex) (i j : nat) :
  matches ic s r i j -> i <= j /\ (j <= length s \/ j = i).
Proof.
  induction 1;
    try match goal with
    | H : nth_error s ?i = Some _ |- _ =>
        assert (i < length s) by (apply nth_error_Some; congruence)
    end; lia.
Qed.

(** Every position the matcher returns is a match of the rules. *)
Lemma ends_sound (ic : bool) (s : str) (r : regex) :
  forall i j, In j (ends ic r s i) -> matches ic s r i j.
Proof.
  assert (Star : forall a,
    (forall i j, In j (ends ic a s i) -> matches ic s a i j) ->
    forall n p q, rounds (ends ic a s) n p q -> matches ic s (RStar a) p q).
  { intros a IH n p q R. induction R as [p | n p p' q Hs _ IHR].
    - constructor.
    - econstructor; [apply IH; exact Hs | exact IHR]. }
  induction r as [|c| |n k|a|a IHa b IHb|a IHa b IHb|a IHa|a IHa|a IHa];
    intros i j H; cbn [ends] in H.
  - destruct H as [<- | []]. constructor.
  - apply step_char_In in H as (x & Hx & Hf & ->). econstructor; eauto.
  - apply step_char_In in H as (x & Hx & Hf & ->).
    apply negb_true_iff in Hf. econstructor; eauto.
  - apply step_char_In in H as (x & Hx & Hf & ->). econstructor; eauto.
  - destruct (assertion_holds a s i) eqn:E; [|destruct H].
    destruct H as [<- | []]. now constructor.
  - apply in_flat_map in H as (m & Hm & Hj). econstructor; eauto.
  - apply in_app_or in H as [H | H]; [apply M_alt_l | apply M_alt_r]; auto.
  - apply closure_sound in H as (n & p & [<- | []] & R). eapply Star; eauto.
  - apply closure_sound in H as (n & p & Hp & R).
    econstructor; [apply IHa; exact Hp | eapply Star; eauto].
  - destruct H as [<- | H]; [apply M_opt_skip | apply M_opt_take; auto].
Qed.

Lemma rounds_end (step : nat -> list nat) (L n p q : nat) :
  (forall x y, In y (step x) -> y <= L \/ y = x) ->
  rounds step n p q -> q <= L \/ q = p.
Proof.
  intros B. induction 1 as [p | n p p' q Hs _ IH]; [now right|].
  destruct (B _ _ Hs); lia.
Qed.

(** The fuel of the matcher is enough: what rounds of [a] reach from the
    front is in the closure computed with [length s] rounds. *)
Lemma closure_short (ic : bool) (s : str) (a : regex) (front : list nat)
    (n p q : nat) :
  In p front -> rounds (ends ic a s) n p q ->
  In q (closure (ends ic a s) (length s) front).
Proof.
  intros Hp R.
  assert (Sound : forall x y, In y (ends ic a s x) -> matches ic s a x y)
    by (intros; now apply ends_sound).
  assert (Mono : forall x y, In y (ends ic a s x) -> x <= y).
  { intros x y Hx. now apply Sound, matches_bounds in Hx. }
  assert (B : forall x y, In y (ends ic a s x) -> y <= length s \/ y = x).
  { intros x y Hx. now apply Sound, matches_bounds in Hx. }
  destruct (rounds_short _ _ _ _ Mono R) as (Hle & m & Hm & R').
  destruct (rounds_end _ _ _ _ _ B R');
    (eapply closure_complete; [exact R' | lia | exact Hp]).
Qed.

(** Every match of the rules is a position the matcher returns. *)
Lemma ends_complete (ic : bool) (s : str) (r : regex) (i j : nat) :
  matches ic s r i j -> In j (ends ic r s i).
Proof.
  induction 1; cbn [ends].
  - now left.
  - apply step_char_In. eauto.
  - apply step_char_In. eexists. repeat split; eauto.
    now apply negb_true_iff.
  - apply step_char_In. eauto.
  - match goal with E : assertion_holds _ _ _ = true |- _ => rewrite E end.
    now left.
  - apply in_flat_map. eexists. split; eauto.
  - apply in_or_app. now left.
  - apply in_or_app. now right.
  - apply closure_short with (n := 0) (p := i); [now left | constructor].
  - cbn [ends] in IHmatches2.
    apply closure_sound in IHmatches2 as (n & p & [<- | []] & R).
    apply closure_short with (n := S n) (p := i); [now left|].
    econstructor; eauto.
  - cbn [ends] in IHmatches2.
    apply closure_sound in IHmatches2 as (n & p & [<- | []] & R).
    eapply closure_short; eauto.
  - now left.
  - now right.
Qed.

(** The matcher and the rules agree. *)
Theorem ends_matches (ic : bool) (s : str) (r : regex) (i j : nat) :
  In j (ends ic r s i) <-> matches ic s r i j.
Proof. split; [apply ends_sound | apply ends_complete]. Qed.

End Semantics.

(** ** Patterns without syntax characters *)

Module RegexFacts.
Import Regex.

Lemma tokenize_plain_char (c : ascii) (rest : str) :
  plain_char c = true -> tokenize (c :: rest) = TChar c :: tokenize rest.
Proof. each_char c; intros H; try discriminate H; reflexivity. Qed.

Lemma tokenize_plain (w rest : str) :
  plain w = true -> tokenize (w ++ rest) = map TChar w ++ tokenize rest.
Proof.
  induction w as [|c w IH]; intros H; [reflexivity|].
  simpl in H. apply andb_prop in H as [Hc Hw].
  rewrite <- app_comm_cons, tokenize_plain_char by exact Hc.
  simpl. now rewrite IH.
Qed.

Lemma tokenize_word_pattern (w : str) :
  plain w = true ->
  tokenize (word_pattern w)
  = TAssert AWordB :: map TChar w ++ [TAssert AWordB].
Proof.
  intros H. unfold word_pattern.
  change (js "\b" ++ w ++ js "\b")
    with ("\"%char :: "b"%char :: (w ++ ["\"%char; "b"%char])).
  change (tokenize ("\"%char :: "b"%char :: (w ++ ["\"%char; "b"%char])))
    with (TAssert AWordB :: tokenize (w ++ ["\"%char; "b"%char])).
  now rewrite tokenize_plain.
Qed.

Lemma chars_modelled (w : str) (ts : list token) :
  existsb is_unmodelled (map TChar w ++ ts) = existsb is_unmodelled ts.
Proof. induction w as [|c w IH]; [reflexivity | exact IH]. Qed.

Lemma parse_chars (w : str) (ts : list token) (top : frame)
    (stack : list frame) :
  parse (map TChar w ++ ts) top stack
  = parse ts
      (mkFrame (alts top) (rev (map RChar w) ++ cur top)
               (match w with [] => last top | _ :: _ => LAtom end))
      stack.
Proof.
  revert top. induction w as [|c w IH]; intros top.
  - destruct top. reflexivity.
  - simpl. rewrite IH. simpl. rewrite <- app_assoc. simpl.
    destruct w; reflexivity.
Qed.

Lemma seq_of_rev (terms : list regex) :
  seq_of terms = fold_right RSeq REmpty (rev terms).
Proof.
  exact (eq_sym (fold_left_rev_right RSeq terms REmpty)).
Qed.

(** The pattern [\bw\b] of a term without syntax characters compiles, to
    the tree [word_regex w]. *)
Lemma RegExp_new_word_pattern (w : str) :
  plain w = true ->
  RegExp_new (word_pattern w) true = Ok (mkRegExp (word_regex w) true).
Proof.
  intros H. unfold RegExp_new. rewrite tokenize_word_pattern by exact H.
  cbn [existsb is_unmodelled orb]. rewrite chars_modelled.
  cbn [existsb is_unmodelled orb]. cbn [parse].
  rewrite parse_chars. cbn [parse bind].
  do 2 f_equal. unfold frame_regex, push_assertion. cbn [alts cur fold_left].
  rewrite seq_of_rev. cbn [rev]. rewrite rev_app_distr, rev_involutive.
  cbn [rev app]. unfold word_regex, literal. cbn [fold_right app].
  f_equal. now rewrite fold_right_app.
Qed.

(** A query without syntax characters compiles to the tree that spells it
    out. *)
Lemma RegExp_new_plain (q : str) :
  plain q = true -> RegExp_new q true = Ok (mkRegExp (literal q REmpty) true).
Proof.
  intros H.
  assert (T : tokenize q = map TChar q ++ []).
  { rewrite <- (app_nil_r q) at 1. now rewrite tokenize_plain. }
  unfold RegExp_new. rewrite T, chars_modelled. cbn [existsb].
  rewrite parse_chars. cbn [parse bind]. do 2 f_equal.
  unfold frame_regex. cbn [alts cur fold_left empty_frame].
  rewrite seq_of_rev, app_nil_r, rev_involutive. reflexivity.
Qed.

End RegexFacts.

(** ** Matching a spelled-out pattern *)

Module MatchFacts.
Import Regex.

Lemma skipn_cons_nth (s : str) (i : nat) (x : ascii) :
  nth_error s i = Some x -> skipn i s = x :: skipn (S i) s.
Proof.
  revert i. induction s as [|c s IH]; intros [|i] H; try discriminate.
  - inversion H. reflexivity.
  - simpl in H. now apply IH.
Qed.

Lemma skipn_nil_nth (s : str) (i : nat) :
  nth_error s i = None -> skipn i s = [].
Proof. intros H. apply skipn_all2. now apply nth_error_None. Qed.

Lemma ends_literal (ic : bool) (w : str) (k : regex) (s : str) (i : nat) :
  ends ic (literal w k) s i
  = if prefix_match ic w (skipn i s) then ends ic k s (i + length w) else [].
Proof.
  revert i. induction w as [|c w IH]; intros i.
  - simpl. now rewrite Nat.add_0_r.
  - change (literal (c :: w) k) with (RSeq (RChar c) (literal w k)).
    cbn [ends]. unfold step_char.
    destruct (nth_error s i) as [x|] eqn:E.
    + rewrite (skipn_cons_nth _ _ _ E). cbn [prefix_match].
      destruct (char_matches ic c x); [|reflexivity].
      cbn [flat_map andb]. rewrite app_nil_r, IH.
      cbn [length]. now rewrite Nat.add_succ_r.
    + now rewrite (skipn_nil_nth _ _ E).
Qed.

Lemma matches_at_word (w s : str) (i : nat) :
  matches_at (mkRegExp (word_regex w) true) s i
  = boundary s i && prefix_match true w (skipn i s)
    && boundary s (i + length w).
Proof.
  unfold matches_at, word_regex. cbn [ast ignoreCase ends assertion_holds].
  destruct (boundary s i); [|reflexivity].
  cbn [flat_map]. rewrite app_nil_r, ends_literal.
  destruct (prefix_match true w (skipn i s)); [|reflexivity].
  cbn [ends assertion_holds].
  destruct (boundary s (i + length w)); reflexivity.
Qed.

Lemma matches_at_literal (q s : str) (i : nat) :
  matches_at (mkRegExp (literal q REmpty) true) s i
  = prefix_match true q (skipn i s).
Proof.
  unfold matches_at. cbn [ast ignoreCase]. rewrite ends_literal.
  destruct (prefix_match true q (skipn i s)); reflexivity.
Qed.

Lemma test_exists (re : RegExp) (s : str) :
  test re s = true <-> exists i, i <= length s /\ matches_at re s i = true.
Proof.
  unfold test. rewrite existsb_exists. split.
  - intros (i & Hin & H). apply in_seq in Hin. exists i. split; [lia | easy].
  - intros (i & Hle & H). exists i. split; [|easy]. apply in_seq. lia.
Qed.

Lemma prefix_match_ci (w t : str) : prefix_match true w t = prefix_ci w t.
Proof.
  revert t. induction w as [|c w IH]; intros [|x t]; try reflexivity.
  simpl. now rewrite char_matches_ci, IH.
Qed.

Lemma prefix_ci_spec (w t : str) :
  prefix_ci w t = true <-> exists m post, t = m ++ post /\ same_ci m w.
Proof.
  unfold same_ci. revert t. induction w as [|c w IH]; intros t; simpl.
  - split; [|reflexivity]. intros _. now exists [], t.
  - destruct t as [|x t].
    + split; [discriminate|]. intros (m & post & E & H).
      symmetry in E. apply app_eq_nil in E as [-> _]. discriminate.
    + rewrite andb_true_iff, Ascii.eqb_eq, IH. split.
      * intros (Hc & m & post & -> & H). exists (x :: m), post.
        split; [reflexivity|]. simpl. now rewrite H, Hc.
      * intros (m & post & E & H). destruct m as [|y m]; [discriminate|].
        simpl in E, H. inversion E; subst. inversion H.
        split; [easy|]. now exists m, post.
Qed.

Lemma word_before_app (pre r : str) :
  word_before (pre ++ r) (length pre) = ends_with_word pre.
Proof.
  destruct pre as [|c pre] using rev_ind; [reflexivity|].
  unfold ends_with_word. rewrite rev_app_distr. simpl.
  rewrite length_app, Nat.add_comm. simpl. unfold word_at.
  rewrite <- app_assoc, nth_error_app2 by lia.
  now rewrite Nat.sub_diag.
Qed.

Lemma word_at_app (pre r : str) :
  word_at (pre ++ r) (length pre) = starts_with_word r.
Proof.
  unfold word_at. rewrite nth_error_app2 by lia. rewrite Nat.sub_diag.
  destruct r; reflexivity.
Qed.

Lemma boundary_app (pre r : str) :
  boundary (pre ++ r) (length pre) = word_boundary pre r.
Proof.
  unfold boundary, word_boundary. now rewrite word_before_app, word_at_app.
Qed.

(** [test] of the pattern [\bw\b] is the whole-word match of the
    specification. *)
Lemma test_word_regex (w s : str) :
  test (mkRegExp (word_regex w) true) s = true <-> whole_word_match w s.
Proof.
  rewrite test_exists. unfold whole_word_match. split.
  - intros (i & Hle & H). rewrite matches_at_word in H.
    apply andb_prop in H as [H B2]. apply andb_prop in H as [B1 P].
    rewrite prefix_match_ci in P.
    apply prefix_ci_spec in P as (m & post & E & C).
    assert (Hs : s = firstn i s ++ m ++ post).
    { rewrite <- E. symmetry. apply firstn_skipn. }
    assert (Hl : length (firstn i s) = i) by (apply firstn_length_le; lia).
    exists (firstn i s), m, post. repeat split; try assumption.
    + rewrite <- boundary_app, <- Hs, Hl. exact B1.
    + rewrite <- boundary_app, <- app_assoc, <- Hs, length_app, Hl.
      now rewrite (same_ci_length _ _ C).
  - intros (pre & m & post & -> & C & B1 & B2).
    exists (length pre). split; [rewrite length_app; lia|].
    rewrite matches_at_word, boundary_app, B1.
    rewrite skipn_app, Nat.sub_diag, skipn_all. simpl.
    rewrite prefix_match_ci.
    replace (prefix_ci w (m ++ post)) with true.
    2:{ symmetry. apply prefix_ci_spec. now exists m, post. }
    simpl. rewrite <- (same_ci_length _ _ C), <- length_app.
    rewrite app_assoc, boundary_app. exact B2.
Qed.

Lemma contains_cib_spec (q t : str) :
  contains_cib q t = true <-> contains_ci q t.
Proof.
  unfold contains_ci. induction t as [|x t IH]; simpl.
  - rewrite orb_false_r, prefix_ci_spec. split.
    + intros (m & post & E & C). now exists [], m, post.
    + intros (pre & m & post & E & C).
      symmetry in E. apply app_eq_nil in E as [-> E].
      exists m, post. now rewrite E.
  - rewrite orb_true_iff, IH, prefix_ci_spec. split.
    + intros [(m & post & E & C) | (pre & m & post & E & C)].
      * now exists [], m, post.
      * exists (x :: pre), m, post. now rewrite E.
    + intros ([|y pre] & m & post & E & C).
      * left. now exists m, post.
      * right. inversion E. now exists pre, m, post.
Qed.

Lemma contains_cib_exists (q t : str) :
  contains_cib q t = true
  <-> exists i, i <= length t /\ prefix_ci q (skipn i t) = true.
Proof.
  induction t as [|x t IH]; simpl.
  - rewrite orb_false_r. split.
    + intros H. now exists 0.
    + intros (i & Hi & H). now rewrite skipn_nil in H.
  - rewrite orb_true_iff, IH. split.
    + intros [H | (i & Hi & H)].
      * exists 0. split; [lia | exact H].
      * exists (S i). split; [lia | exact H].
    + intros ([|i] & Hi & H).
      * now left.
      * right. exists i. split; [lia | exact H].
Qed.

(** [test] of a spelled-out pattern is the case-insensitive substring
    test. *)
Lemma test_literal (q s : str) :
  test (mkRegExp (literal q REmpty) true) s = contains_cib q s.
Proof.
  apply eq_true_iff_eq. rewrite test_exists, contains_cib_exists.
  split; intros (i & Hi & H); exists i; (split; [exact Hi|]).
  - now rewrite matches_at_literal, prefix_match_ci in H.
  - now rewrite matches_at_literal, prefix_match_ci.
Qed.

End MatchFacts.

(** ** The moderation filter *)

Section Filter.

Lemma is_empty_nil (s : str) : is_empty s = true <-> s = [].
Proof. destruct s; simpl; split; congruence. Qed.

Lemma word_hits_plain (lowerText cleanText word : str) :
  plain (term_of word) = true ->
  word_hits lowerText cleanText word = Ok (hits lowerText cleanText word).
Proof.
  intros H. unfold word_hits, hits. fold (term_of word).
  destruct (is_empty (term_of word)); [reflexivity|].
  now rewrite RegexFacts.RegExp_new_word_pattern.
Qed.

Lemma some_plain (lowerText cleanText : str) (badWords : list str) :
  plain_list badWords ->
  some (word_hits lowerText cleanText) badWords
  = Ok (existsb (hits lowerText cleanText) badWords).
Proof.
  induction 1 as [|word l Hw Hl IH]; [reflexivity|].
  simpl. rewrite word_hits_plain by exact Hw. simpl.
  destruct (hits lowerText cleanText word); [reflexivity | exact IH].
Qed.

Lemma hits_blocks (t word : str) :
  hits (toLowerCase t) (cleaned (toLowerCase t)) word = true <-> blocks t word.
Proof.
  unfold hits, blocks.
  rewrite andb_true_iff, orb_true_iff, negb_true_iff.
  rewrite !MatchFacts.test_word_regex.
  rewrite <- is_empty_nil, not_true_iff_false. reflexivity.
Qed.

(** [some] stops at the first term that hits: the lines after it are not
    looked at, whatever they hold. *)
Lemma some_first_hit (lowerText cleanText : str) (before after : list str)
    (word : str) :
  plain_list before -> plain (term_of word) = true ->
  hits lowerText cleanText word = true ->
  some (word_hits lowerText cleanText) (before ++ word :: after) = Ok true.
Proof.
  intros Hb Hw Hh. induction Hb as [|x l Hx Hl IH]; simpl.
  - rewrite word_hits_plain by exact Hw. now rewrite Hh.
  - rewrite word_hits_plain by exact Hx. simpl.
    now destruct (hits lowerText cleanText x).
Qed.

End Filter.

(** C1, as stated, fails where a term holds syntax characters: the term
    [a.c] makes the filter answer [true] on ["abc"], in which it matches
    as no whole word, and with the term [c++] the filter throws on every
    text that is not empty, so it answers neither [true] nor [false]. *)
Lemma filter_reads_terms_as_patterns :
  (containsBadWords [js "a.c"] (Some (js "abc")) = Ok true
   /\ ~ filter_spec [js "a.c"] (Some (js "abc")) true)
  /\ containsBadWords [js "c++"] (Some (js "abc")) = Throw SyntaxError.
Proof.
  split; [split|]; try (vm_compute; reflexivity).
  unfold filter_spec. intros [H _].
  destruct (H eq_refl) as (t & E & _ & word & [<- | []] & B).
  inversion E; subst t. apply hits_blocks in B.
  vm_compute in B. discriminate.
Qed.

Lemma containsBadWords_decides (badWords : list str) (text : option str) :
  plain_list badWords ->
  exists b, containsBadWords badWords text = Ok b
            /\ filter_spec badWords text b.
Proof.
  intros P. unfold filter_spec. destruct text as [[|c t]|].
  - exists false. split; [reflexivity|]. split; [discriminate|].
    intros (t & E & N & _). inversion E. congruence.
  - exists (existsb (hits (toLowerCase (c :: t))
                          (cleaned (toLowerCase (c :: t)))) badWords).
    split; [now apply some_plain|].
    rewrite existsb_exists. split.
    + intros (word & Hin & H). exists (c :: t).
      repeat split; [discriminate|]. exists word.
      split; [exact Hin | now apply hits_blocks].
    + intros (t' & E & _ & word & Hin & B). inversion E; subst t'.
      exists word. split; [exact Hin | now apply hits_blocks].
  - exists false. split; [reflexivity|]. split; [discriminate|].
    intros (t & E & _). discriminate.
Qed.

(** C1, amended. When no term of the list (trimmed and lowered) holds a
    syntax character of patterns, the filter returns a boolean; it is
    [false] on an empty or absent text, and otherwise [true] exactly when
    some term that is not empty matches as a whole word, in any
    capitalization and with a word boundary on both sides, in the lowered
    text or in its variant without punctuation. The answer is [true] at
    the first term that matches: the lines after it are not read, so they
    may hold anything. *)
Theorem containsBadWords_plain (badWords : list str) (text : option str) :
  (plain_list badWords ->
   exists b, containsBadWords badWords text = Ok b
             /\ filter_spec badWords text b)
  /\ (forall before word after t,
        badWords = before ++ word :: after -> text = Some t -> t <> [] ->
        plain_list before -> plain (term_of word) = true -> blocks t word ->
        containsBadWords badWords text = Ok true).
Proof.
  split; [apply containsBadWords_decides|].
  intros before word after t -> -> N Pb Pw B.
  destruct t as [|c t]; [congruence|]. unfold containsBadWords.
  apply some_first_hit; try assumption. now apply hits_blocks.
Qed.

Lemma containsBadWords_plain_witness :
  (exists b, containsBadWords [js "ass"; js " Darn "]
               (Some (js "well, d-a-r-n!")) = Ok b
             /\ filter_spec [js "ass"; js " Darn "]
                            (Some (js "well, d-a-r-n!")) b)
  /\ containsBadWords [js "ass"; js " Darn "; js "c++"]
                      (Some (js "well, d-a-r-n!")) = Ok true.
Proof.
  split.
  - apply containsBadWords_plain. repeat constructor.
  - apply (proj2 (containsBadWords_plain _ _))
      with (before := [js "ass"]) (word := js " Darn ") (after := [js "c++"])
           (t := js "well, d-a-r-n!");
      try reflexivity; try discriminate.
    + repeat constructor.
    + apply hits_blocks. vm_compute. reflexivity.
Defined.

(** ** Standalone words *)

Section Standalone.

Lemma standaloneb_spec (w t : str) :
  standaloneb w t = true <-> standalone w t.
Proof.
  unfold standaloneb, standalone. rewrite existsb_exists. split.
  - intros (i & Hin & H). apply in_seq in Hin. unfold standalone_at in H.
    apply andb_prop in H as [H B2]. apply andb_prop in H as [B1 P].
    apply negb_true_iff in B1, B2.
    apply MatchFacts.prefix_ci_spec in P as (m & post & E & C).
    assert (Ht : t = firstn i t ++ m ++ post).
    { rewrite <- E. symmetry. apply firstn_skipn. }
    assert (Hl : length (firstn i t) = i) by (apply firstn_length_le; lia).
    exists (firstn i t), m, post. repeat split; try assumption.
    + rewrite <- (MatchFacts.word_before_app _ (m ++ post)), <- Ht, Hl.
      exact B1.
    + rewrite <- (MatchFacts.word_at_app (firstn i t ++ m) post).
      rewrite <- app_assoc, <- Ht, length_app, Hl.
      now rewrite (same_ci_length _ _ C).
  - intros (pre & m & post & -> & C & B1 & B2).
    exists (length pre). split.
    + apply in_seq. rewrite length_app. lia.
    + unfold standalone_at.
      rewrite MatchFacts.word_before_app, B1.
      rewrite skipn_app, Nat.sub_diag, skipn_all. simpl.
      replace (prefix_ci w (m ++ post)) with true.
      2:{ symmetry. apply MatchFacts.prefix_ci_spec. now exists m, post. }
      simpl. rewrite <- (same_ci_length _ _ C), <- length_app.
      rewrite app_assoc, MatchFacts.word_at_app. now rewrite B2.
Qed.

Lemma starts_with_word_lower (s : str) :
  starts_with_word (toLowerCase s) = starts_with_word s.
Proof. destruct s; [reflexivity | apply is_word_lower]. Qed.

Lemma ends_with_word_lower (s : str) :
  ends_with_word (toLowerCase s) = ends_with_word s.
Proof.
  unfold ends_with_word, toLowerCase. rewrite <- map_rev.
  destruct (rev s); [reflexivity | apply is_word_lower].
Qed.

Lemma same_ci_starts (m w : str) :
  same_ci m w -> starts_with_word m = starts_with_word w.
Proof.
  intros H. rewrite <- (starts_with_word_lower m), <- (starts_with_word_lower w).
  now rewrite H.
Qed.

Lemma same_ci_ends (m w : str) :
  same_ci m w -> ends_with_word m = ends_with_word w.
Proof.
  intros H. rewrite <- (ends_with_word_lower m), <- (ends_with_word_lower w).
  now rewrite H.
Qed.

Lemma starts_with_word_app (m post : str) :
  starts_with_word m = true -> starts_with_word (m ++ post) = true.
Proof. destruct m; [discriminate | easy]. Qed.

Lemma ends_with_word_app (pre m : str) :
  ends_with_word m = true -> ends_with_word (pre ++ m) = true.
Proof.
  unfold ends_with_word. rewrite rev_app_distr.
  destruct (rev m); [discriminate | easy].
Qed.

(** For a term with a word character at both ends, the word boundaries of
    [\b] say that the term stands alone. *)
Lemma whole_word_standalone (w t : str) :
  word_edged w -> (whole_word_match w t <-> standalone w t).
Proof.
  intros [S E]. unfold whole_word_match, standalone, word_boundary.
  split; intros (pre & m & post & Ht & C & B1 & B2);
    exists pre, m, post; repeat split; try assumption.
  - rewrite starts_with_word_app in B1
      by (now rewrite (same_ci_starts _ _ C)).
    now destruct (ends_with_word pre).
  - rewrite ends_with_word_app in B2 by (now rewrite (same_ci_ends _ _ C)).
    now destruct (starts_with_word post).
  - rewrite starts_with_word_app by (now rewrite (same_ci_starts _ _ C)).
    now rewrite B1.
  - rewrite ends_with_word_app by (now rewrite (same_ci_ends _ _ C)).
    now rewrite B2.
Qed.

Lemma standalone_lower (w t : str) :
  standalone w t -> standalone w (toLowerCase t).
Proof.
  intros (pre & m & post & -> & C & B1 & B2).
  exists (toLowerCase pre), (toLowerCase m), (toLowerCase post).
  rewrite !toLowerCase_app. repeat split.
  - unfold same_ci. now rewrite toLowerCase_idem.
  - now rewrite ends_with_word_lower.
  - now rewrite starts_with_word_lower.
Qed.

Lemma word_edged_not_empty (w : str) : word_edged w -> w <> [].
Proof. intros [S _] ->. discriminate. Qed.

End Standalone.

(** C2, as stated, fails in both halves. The term [@ss] stands alone in
    the text ["@ss"] and the filter answers [false], because [\b] asks for
    a word character next to the [@]. The term [ass] occurs in
    ["bass a.s.s"] only inside the word [bass] and the filter answers
    [true], because the variant without punctuation reads ["bass ass"]. *)
Lemma standalone_is_not_what_the_filter_tests :
  (standalone (js "@ss") (js "@ss")
   /\ containsBadWords [js "@ss"] (Some (js "@ss")) = Ok false)
  /\ (inside_words_only (js "ass") (js "bass a.s.s")
      /\ containsBadWords [js "ass"] (Some (js "bass a.s.s")) = Ok true).
Proof.
  split; split; try (vm_compute; reflexivity).
  - apply standaloneb_spec. vm_compute. reflexivity.
  - split.
    + apply MatchFacts.contains_cib_spec. vm_compute. reflexivity.
    + intros H. apply standaloneb_spec in H. vm_compute in H. discriminate.
Qed.

(** C2, amended. Let no term of the list hold a syntax character of
    patterns. If a term that begins and ends with a word character occurs
    in [t], in any capitalization, as a standalone word, the filter answers
    [true]. If every term begins and ends with a word character and none
    occurs as a standalone word in the lowered text or in its variant
    without punctuation, the filter answers [false]. *)
Theorem standalone_terms_decide (badWords : list str) (t : str) :
  plain_list badWords ->
  (forall word, In word badWords -> word_edged (term_of word) ->
                standalone (term_of word) t ->
                containsBadWords badWords (Some t) = Ok true)
  /\ ((forall word, In word badWords ->
                    word_edged (term_of word)
                    /\ ~ standalone (term_of word) (toLowerCase t)
                    /\ ~ standalone (term_of word) (cleaned (toLowerCase t))) ->
      containsBadWords badWords (Some t) = Ok false).
Proof.
  intros P.
  destruct (containsBadWords_decides badWords (Some t) P) as (b & -> & Hb).
  unfold filter_spec in Hb. split.
  - intros word Hin We St. f_equal. apply Hb.
    assert (Ht : t <> []).
    { intros ->. destruct St as (pre & m & post & E & C & _).
      symmetry in E. apply app_eq_nil in E as [_ E].
      apply app_eq_nil in E as [-> _].
      apply same_ci_length in C. destruct (term_of word) eqn:X.
      - now apply (word_edged_not_empty _ We).
      - discriminate. }
    exists t. repeat split; try assumption. exists word. split; [exact Hin|].
    split; [now apply word_edged_not_empty|]. left.
    apply whole_word_standalone; [exact We | now apply standalone_lower].
  - intros H. f_equal. apply not_true_is_false. intros Hbt.
    apply Hb in Hbt as (t' & E & _ & word & Hin & _ & B).
    inversion E; subst t'. destruct (H word Hin) as (We & N1 & N2).
    destruct B as [B | B]; apply whole_word_standalone in B; auto.
Qed.

Lemma standalone_terms_decide_witness :
  containsBadWords [js "ass"; js "Darn"] (Some (js "Well, DARN it")) = Ok true
  /\ containsBadWords [js "ass"; js "Darn"] (Some (js "bass and darning"))
     = Ok false.
Proof.
  assert (P : plain_list [js "ass"; js "Darn"]) by (repeat constructor).
  split.
  - apply (standalone_terms_decide _ (js "Well, DARN it") P) with (word := js "Darn").
    + right. now left.
    + split; reflexivity.
    + apply standaloneb_spec. vm_compute. reflexivity.
  - apply (standalone_terms_decide _ (js "bass and darning") P).
    intros word [<- | [<- | []]]; (split; [split; reflexivity|]);
      split; intros H; apply standaloneb_spec in H; vm_compute in H;
      discriminate.
Defined.

(** ** Capitalization *)





(** ** The search handler *)

Section Search.

Lemma insert_by_date_perm (p : Pattern) (l : list Pattern) :
  Permutation (insert_by_date p l) (p :: l).
Proof.
  induction l as [|q r IH]; simpl; [reflexivity|].
  destruct (dateUploaded q <=? dateUploaded p)%N; [reflexivity|].
  rewrite IH. apply perm_swap.
Qed.

Lemma sort_newest_first_perm (l : list Pattern) :
  Permutation (sort_newest_first l) l.
Proof.
  induction l as [|p l IH]; simpl; [reflexivity|].
  rewrite insert_by_date_perm. now constructor.
Qed.

Lemma insert_by_date_sorted (p : Pattern) (l : list Pattern) :
  newest_first l -> newest_first (insert_by_date p l).
Proof.
  unfold newest_first. induction 1 as [|q r Hr IH Hq]; simpl.
  - repeat constructor.
  - destruct (dateUploaded q <=? dateUploaded p)%N eqn:E.
    + apply N.leb_le in E. constructor; [now constructor|].
      constructor; [exact E|].
      eapply Forall_impl; [|exact Hq]. simpl. intros a Ha. lia.
    + apply N.leb_gt in E. constructor; [exact IH|].
      eapply Permutation_Forall.
      * symmetry. apply insert_by_date_perm.
      * constructor; [lia | exact Hq].
Qed.

Lemma sort_newest_first_sorted (l : list Pattern) :
  newest_first (sort_newest_first l).
Proof.
  induction l as [|p l IH]; simpl; [constructor|].
  now apply insert_by_date_sorted.
Qed.

Lemma search_hit_plain (q : str) (p : Pattern) :
  search_hit (Regex.mkRegExp (literal q Regex.REmpty) true) p
  = record_contains q p.
Proof.
  unfold search_hit, record_contains. now rewrite !MatchFacts.test_literal.
Qed.

Lemma search_plain (q : str) (db : store) :
  q <> [] -> plain q = true ->
  search (Some q) db
  = Ok (mkResponse 200
          (Docs (sort_newest_first (filter (record_contains q) db))), db).
Proof.
  intros N P. unfold search. destruct q as [|c q]; [congruence|].
  rewrite RegexFacts.RegExp_new_plain by exact P.
  cbn [bind catch]. unfold reply.
  rewrite (filter_ext _ _ (search_hit_plain (c :: q))). reflexivity.
Qed.

End Search.

(** C3, as stated, fails where the query holds syntax characters: the
    query [a.c] returns a record named ["abc"], which holds ["a.c"] in no
    field, and the query [(] is answered with the server error. *)
Lemma search_reads_query_as_pattern :
  let abc := mkPattern (js "t.pdf") (js "abc") (js "B") (js "tune")
                       (js "s2") 2 None (Some 0%N) in
  (search (Some (js "a.c")) [abc] = Ok (mkResponse 200 (Docs [abc]), [abc])
   /\ record_contains (js "a.c") abc = false)
  /\ search (Some (js "(")) [abc] = Ok (server_error, [abc]).
Proof. vm_compute. repeat split. Qed.

(** C3, amended. For a query that is not empty and holds no syntax
    character of patterns, the search answers 200 with the records that
    hold the query, in any capitalization, as a substring of patternName,
    authorName or description, newest first, and no others. An empty or
    missing query is answered 400 and nothing is searched. *)
Theorem search_returns_matches_newest_first (q : str) (db : store) :
  (q <> [] -> plain q = true ->
   exists l, search (Some q) db = Ok (mkResponse 200 (Docs l), db)
             /\ search_spec q db l)
  /\ search (Some []) db = Ok (query_required, db)
  /\ search None db = Ok (query_required, db).
Proof.
  split; [|split; reflexivity]. intros N P.
  exists (sort_newest_first (filter (record_contains q) db)).
  split; [now apply search_plain|]. unfold search_spec.
  split; [apply sort_newest_first_perm|].
  split; [|apply sort_newest_first_sorted].
  intros p. rewrite <- filter_In. split; apply Permutation_in.
  - apply sort_newest_first_perm.
  - symmetry. apply sort_newest_first_perm.
Qed.

Lemma search_returns_matches_newest_first_witness :
  exists l, search (Some (js "REEL")) [highland_reel]
            = Ok (mkResponse 200 (Docs l), [highland_reel])
            /\ search_spec (js "REEL") [highland_reel] l.
Proof.
  apply (search_returns_matches_newest_first (js "REEL") [highland_reel]).
  - discriminate.
  - reflexivity.
Defined.

(** ** path.extname *)

Module PathFacts.
Import Path.

Lemma run_nil (st : scan) : run [] st = st.
Proof. reflexivity. Qed.

Lemma run_cons (c : ascii) (r : str) (st : scan) :
  run (c :: r) st
  = if (c =? "/")%char then
      if negb (matchedSlash st) then
        mkScan (startDot st) (Z.of_nat (length r) + 1) (end_ st)
               (matchedSlash st) (preDotState st)
      else run r st
    else run r (visit c (Z.of_nat (length r)) st).
Proof.
  unfold run. cbn [extname_loop].
  replace (Z.of_nat (length (c :: r)) - 1)%Z with (Z.of_nat (length r))
    by (cbn [length]; lia).
  reflexivity.
Qed.


Lemma no_slash_cons (c : ascii) (s : str) :
  no_slash (c :: s) = true <-> (c =? "/")%char = false /\ no_slash s = true.
Proof.
  unfold no_slash. simpl. rewrite andb_true_iff, negb_true_iff. reflexivity.
Qed.

Lemma no_dot_cons (c : ascii) (s : str) :
  no_dot (c :: s) = true <-> (c =? ".")%char = false /\ no_dot s = true.
Proof.
  unfold no_dot. simpl. rewrite andb_true_iff, negb_true_iff. reflexivity.
Qed.

(** Trailing slashes are skipped. *)
Lemma run_slashes (k : nat) (r : str) :
  run (slashes k ++ r) scan0 = run r scan0.
Proof.
  induction k as [|k IH]; [reflexivity|].
  cbn [slashes repeat app]. rewrite run_cons. exact IH.
Qed.

Lemma run_first_plain (c : ascii) (r : str) :
  (c =? "/")%char = false -> (c =? ".")%char = false ->
  run (c :: r) scan0 = run r (in_ext (Z.of_nat (length r) + 1)).
Proof. intros S D. rewrite run_cons, S. unfold visit. simpl. now rewrite D. Qed.

Lemma run_ext (rext r : str) (e : Z) :
  (0 <= e)%Z -> no_slash rext = true -> no_dot rext = true ->
  run (rext ++ r) (in_ext e) = run r (in_ext e).
Proof.
  intros He. induction rext as [|c rext IH]; intros S D; [reflexivity|].
  apply no_slash_cons in S as [Sc S]. apply no_dot_cons in D as [Dc D].
  cbn [app]. rewrite run_cons, Sc. unfold visit, in_ext.
  cbn [startDot startPart end_ matchedSlash preDotState].
  replace (e =? -1)%Z with false by (symmetry; apply Z.eqb_neq; lia).
  rewrite Dc. cbn [startDot Z.eqb negb]. now apply IH.
Qed.

Lemma run_first_dot (r : str) :
  run ("."%char :: r) scan0
  = run r (in_base (Z.of_nat (length r)) (Z.of_nat (length r) + 1) 0).
Proof. rewrite run_cons. reflexivity. Qed.

Lemma run_dot (r : str) (e : Z) :
  (0 <= e)%Z ->
  run ("."%char :: r) (in_ext e) = run r (in_base (Z.of_nat (length r)) e 0).
Proof.
  intros He. rewrite run_cons. cbn [Ascii.eqb Bool.eqb]. unfold visit, in_ext.
  cbn [startDot startPart end_ matchedSlash preDotState].
  replace (e =? -1)%Z with false by (symmetry; apply Z.eqb_neq; lia).
  reflexivity.
Qed.

Lemma run_base_char (c : ascii) (r : str) (d e p : Z) :
  (0 <= d)%Z -> (0 <= e)%Z -> (c =? "/")%char = false ->
  run (c :: r) (in_base d e p)
  = run r (in_base d e (if (c =? ".")%char then 1 else -1)).
Proof.
  intros Hd He S. rewrite run_cons, S. unfold visit, in_base.
  cbn [startDot startPart end_ matchedSlash preDotState].
  replace (e =? -1)%Z with false by (symmetry; apply Z.eqb_neq; lia).
  cbn [startDot startPart end_ matchedSlash preDotState].
  replace (d =? -1)%Z with false by (symmetry; apply Z.eqb_neq; lia).
  destruct (c =? ".")%char; cbn [negb]; [|reflexivity].
  destruct (p =? 1)%Z eqn:P; cbn [negb]; [|reflexivity].
  apply Z.eqb_eq in P. now subst.
Qed.

Lemma base_state_cons (c : ascii) (rbase : str) (p : Z) :
  base_state (if (c =? ".")%char then 1 else -1) rbase
  = base_state p (c :: rbase).
Proof.
  unfold base_state. cbn [rev]. destruct (rev rbase); reflexivity.
Qed.

Lemma run_base (rbase r : str) (d e p : Z) :
  (0 <= d)%Z -> (0 <= e)%Z -> no_slash rbase = true ->
  run (rbase ++ r) (in_base d e p) = run r (in_base d e (base_state p rbase)).
Proof.
  intros Hd He. revert p. induction rbase as [|c rbase IH]; intros p S.
  - reflexivity.
  - apply no_slash_cons in S as [Sc S]. cbn [app].
    rewrite run_base_char by assumption. rewrite IH by exact S.
    now rewrite (base_state_cons c rbase p).
Qed.

(** The slash before the segment ends the loop. *)
Lemma run_tail (tail : str) (st : scan) :
  matchedSlash st = false ->
  (tail = [] \/ exists t, tail = "/"%char :: t) ->
  exists sp, run tail st
             = mkScan (startDot st) sp (end_ st) false (preDotState st)
             /\ (sp = startPart st /\ tail = []
                 \/ sp = (Z.of_nat (length tail))%Z /\ tail <> []).
Proof.
  intros M [-> | (t & ->)].
  - exists (startPart st). split; [|now left].
    rewrite run_nil. destruct st. simpl in M. now subst.
  - exists (Z.of_nat (length ("/"%char :: t))). split.
    + rewrite run_cons. cbn [Ascii.eqb Bool.eqb]. rewrite M. cbn [negb].
      f_equal. cbn [length]. lia.
    + right. split; [reflexivity | discriminate].
Qed.

Lemma extname_run (path : str) :
  extname path
  = let st := run (rev path) scan0 in
    if (startDot st =? -1)%Z
       || (end_ st =? -1)%Z
       || (preDotState st =? 0)%Z
       || ((preDotState st =? 1)%Z
           && (startDot st =? end_ st - 1)%Z
           && (startDot st =? startPart st + 1)%Z)
    then []
    else slice path (startDot st) (end_ st).
Proof. unfold extname, run. now rewrite length_rev. Qed.

(** A segment without a dot has no extension. *)
Lemma extname_no_dot (k : nat) (rseg tail : str) :
  no_slash rseg = true -> no_dot rseg = true ->
  (tail = [] \/ exists t, tail = "/"%char :: t /\ rseg <> []) ->
  extname (rev (slashes k ++ rseg ++ tail)) = [].
Proof.
  intros S D T. rewrite extname_run, rev_involutive, run_slashes.
  destruct rseg as [|c rseg].
  - destruct T as [-> | (t & _ & N)]; [reflexivity | congruence].
  - apply no_slash_cons in S as [Sc S]. apply no_dot_cons in D as [Dc D].
    cbn [app]. rewrite run_first_plain by assumption.
    rewrite run_ext by (assumption || lia).
    destruct (run_tail tail (in_ext (Z.of_nat (length (rseg ++ tail)) + 1))
                eq_refl) as (sp & -> & _).
    { destruct T as [-> | (t & -> & _)]; [now left | right; now exists t]. }
    reflexivity.
Qed.

Lemma slice_middle (a b c : str) :
  slice (a ++ b ++ c) (Z.of_nat (length a)) (Z.of_nat (length a + length b))
  = b.
Proof.
  unfold slice. rewrite Nat2Z.id.
  replace (Z.to_nat (Z.of_nat (length a + length b) - Z.of_nat (length a)))
    with (length b) by lia.
  rewrite skipn_app, Nat.sub_diag, skipn_all. cbn [app skipn].
  rewrite firstn_app, Nat.sub_diag, firstn_all. cbn [firstn].
  apply app_nil_r.
Qed.

Lemma rev_slashes (k : nat) : rev (slashes k) = slashes k.
Proof.
  unfold slashes. induction k as [|k IH]; [reflexivity|].
  cbn [repeat rev]. rewrite IH. symmetry. apply repeat_cons.
Qed.

Lemma run_with_dot (k : nat) (rext rbase tail : str) :
  no_slash rext = true -> no_dot rext = true -> no_slash rbase = true ->
  (tail = [] \/ exists t, tail = "/"%char :: t) ->
  exists sp,
    run (slashes k ++ rext ++ "."%char :: rbase ++ tail) scan0
    = mkScan (Z.of_nat (length (rbase ++ tail))) sp
             (Z.of_nat (length (rbase ++ tail) + length ("."%char :: rext)))
             false (base_state 0 rbase).
Proof.
  intros S D Sb T. rewrite run_slashes.
  assert (B : forall e, (0 <= e)%Z ->
    exists sp, run (rbase ++ tail)
                   (in_base (Z.of_nat (length (rbase ++ tail))) e 0)
               = mkScan (Z.of_nat (length (rbase ++ tail))) sp e false
                        (base_state 0 rbase)).
  { intros e He. rewrite run_base by (assumption || lia).
    destruct (run_tail tail
                (in_base (Z.of_nat (length (rbase ++ tail))) e
                         (base_state 0 rbase)) eq_refl T) as (sp & -> & _).
    now exists sp. }
  destruct rext as [|c rext].
  - cbn [app]. rewrite run_first_dot.
    destruct (B (Z.of_nat (length (rbase ++ tail)) + 1)%Z) as (sp & ->); [lia|].
    exists sp. f_equal. cbn [length]. lia.
  - apply no_slash_cons in S as [Sc S]. apply no_dot_cons in D as [Dc D].
    cbn [app]. rewrite run_first_plain by assumption.
    rewrite run_ext by (assumption || lia). rewrite run_dot by lia.
    destruct (B (Z.of_nat (length (rext ++ "."%char :: rbase ++ tail)) + 1)%Z)
      as (sp & ->); [lia|].
    exists sp. f_equal. rewrite length_app. cbn [length]. lia.
Qed.

Lemma base_state_not_0 (rbase : str) : rbase <> [] -> base_state 0 rbase <> 0%Z.
Proof.
  intros N. unfold base_state. destruct (rev rbase) as [|c r] eqn:E.
  - apply (f_equal (@rev ascii)) in E. rewrite rev_involutive in E.
    now contradiction N.
  - destruct (c =? ".")%char; discriminate.
Qed.

Lemma path_with_dot (k : nat) (rext rbase tail : str) :
  rev (slashes k ++ rext ++ "."%char :: rbase ++ tail)
  = (rev tail ++ rev rbase) ++ ("."%char :: rev rext) ++ slashes k.
Proof.
  rewrite rev_app_distr, rev_slashes, rev_app_distr. cbn [rev].
  rewrite rev_app_distr, <- !app_assoc. reflexivity.
Qed.

(** The extension of a path whose last segment has a dot: from the last
    dot of the segment to its end, unless the segment begins with that
    dot. *)
Lemma extname_with_dot (k : nat) (rext rbase tail : str) :
  no_slash rext = true -> no_dot rext = true -> no_slash rbase = true ->
  (tail = [] \/ exists t, tail = "/"%char :: t) ->
  let path := rev (slashes k ++ rext ++ "."%char :: rbase ++ tail) in
  (rbase = [] -> extname path = [])
  /\ (rbase <> [] -> rext <> [] -> extname path = "."%char :: rev rext)
  /\ (rext = [] -> extname path = [] \/ extname path = ["."%char]).
Proof.
  intros S D Sb T path.
  assert (E := extname_run path). unfold path in E at 2.
  rewrite rev_involutive in E.
  destruct (run_with_dot k rext rbase tail S D Sb T) as (sp & R).
  rewrite R in E. cbn zeta in E.
  cbn [startDot startPart end_ matchedSlash preDotState] in E.
  replace (Z.of_nat (length (rbase ++ tail)) =? -1)%Z with false in E
    by (symmetry; apply Z.eqb_neq; lia).
  replace (Z.of_nat (length (rbase ++ tail) + length ("."%char :: rext)) =? -1)%Z
    with false in E by (symmetry; apply Z.eqb_neq; lia).
  cbn [orb] in E.
  assert (Sl : slice path (Z.of_nat (length (rbase ++ tail)))
                 (Z.of_nat (length (rbase ++ tail) + length ("."%char :: rext)))
               = "."%char :: rev rext).
  { unfold path. rewrite path_with_dot.
    replace (length (rbase ++ tail)) with (length (rev tail ++ rev rbase))
      by (rewrite !length_app, !length_rev; lia).
    replace (length ("."%char :: rext)) with (length ("."%char :: rev rext))
      by (cbn [length]; now rewrite length_rev).
    apply slice_middle. }
  rewrite Sl in E. split; [|split].
  - intros ->. cbn [base_state rev] in E. exact E.
  - intros Nb Ne. rewrite E.
    replace (base_state 0 rbase =? 0)%Z with false
      by (symmetry; apply Z.eqb_neq; now apply base_state_not_0).
    replace (Z.of_nat (length (rbase ++ tail))
             =? Z.of_nat (length (rbase ++ tail) + length ("."%char :: rext)) - 1)%Z
      with false.
    + now rewrite andb_false_r.
    + symmetry. apply Z.eqb_neq. destruct rext; [congruence|].
      cbn [length]. lia.
  - intros ->. rewrite E. cbn [rev].
    match goal with |- context [if ?b then _ else _] => destruct b end;
      [now left | now right].
Qed.

Lemma take_segment (r : str) :
  exists rbase tail,
    r = rbase ++ tail /\ no_slash rbase = true
    /\ (tail = [] \/ exists t, tail = "/"%char :: t).
Proof.
  induction r as [|c r (rbase & tail & -> & S & T)].
  - exists [], []. repeat split. now left.
  - destruct (c =? "/")%char eqn:E.
    + apply Ascii.eqb_eq in E. subst c. exists [], ("/"%char :: rbase ++ tail).
      repeat split. right. now eexists.
    + exists (c :: rbase), tail. repeat split; [|exact T].
      apply no_slash_cons. now split.
Qed.

Lemma strip_slashes (r : str) :
  exists k r',
    r = slashes k ++ r'
    /\ (r' = [] \/ exists c r'', r' = c :: r'' /\ (c =? "/")%char = false).
Proof.
  induction r as [|c r (k & r' & -> & H)].
  - exists 0, []. split; [reflexivity | now left].
  - destruct (c =? "/")%char eqn:E.
    + apply Ascii.eqb_eq in E. subst c. exists (S k), r'. now split.
    + exists 0, (c :: slashes k ++ r'). split; [reflexivity|].
      right. now exists c, (slashes k ++ r').
Qed.

Lemma split_dot (s : str) :
  no_dot s = true
  \/ exists rext rbase, s = rext ++ "."%char :: rbase /\ no_dot rext = true.
Proof.
  induction s as [|c s IH]; [now left|].
  destruct (c =? ".")%char eqn:E.
  - apply Ascii.eqb_eq in E. subst c. right. now exists [], s.
  - destruct IH as [D | (rext & rbase & -> & D)].
    + left. apply no_dot_cons. now split.
    + right. exists (c :: rext), rbase. split; [reflexivity|].
      apply no_dot_cons. now split.
Qed.

Lemma no_slash_app (a b : str) :
  no_slash (a ++ b) = true <-> no_slash a = true /\ no_slash b = true.
Proof. unfold no_slash. rewrite forallb_app. apply andb_true_iff. Qed.

Lemma no_slash_rev (a : str) : no_slash (rev a) = no_slash a.
Proof.
  unfold no_slash. apply eq_true_iff_eq. rewrite !forallb_forall.
  split; intros H x Hx; apply H;
    [exact (proj1 (in_rev a x) Hx) | exact (proj2 (in_rev a x) Hx)].
Qed.

Lemma no_dot_rev (a : str) : no_dot (rev a) = no_dot a.
Proof.
  unfold no_dot. apply eq_true_iff_eq. rewrite !forallb_forall.
  split; intros H x Hx; apply H;
    [exact (proj1 (in_rev a x) Hx) | exact (proj2 (in_rev a x) Hx)].
Qed.

Lemma rev_not_nil (a : str) : a <> [] -> rev a <> [].
Proof.
  intros N E. apply N. apply (f_equal (@rev ascii)) in E.
  now rewrite rev_involutive in E.
Qed.

(** [extname] of a path that ends in an extension (and slashes). *)
Lemma extname_of_extension (stem ext : str) (k : nat) :
  stem <> [] -> ends_with_slash stem = false ->
  ext <> [] -> no_slash ext = true -> no_dot ext = true ->
  extname (stem ++ "."%char :: ext ++ slashes k) = "."%char :: ext.
Proof.
  intros Ns Es Ne S D.
  destruct (take_segment (rev stem)) as (rbase & tail & Hr & Sb & T).
  assert (Nb : rbase <> []).
  { intros ->. cbn [app] in Hr. unfold ends_with_slash in Es. rewrite Hr in Es.
    destruct T as [-> | (t & ->)].
    - apply rev_not_nil in Ns. congruence.
    - discriminate. }
  assert (P : stem ++ "."%char :: ext ++ slashes k
              = rev (slashes k ++ rev ext ++ "."%char :: rbase ++ tail)).
  { rewrite path_with_dot, rev_involutive, <- rev_app_distr, <- Hr.
    rewrite rev_involutive. reflexivity. }
  rewrite P.
  destruct (extname_with_dot k (rev ext) rbase tail) as (_ & H & _);
    try assumption.
  - now rewrite no_slash_rev.
  - now rewrite no_dot_rev.
  - rewrite H; [now rewrite rev_involutive | exact Nb | now apply rev_not_nil].
Qed.

(** What [extname] can return. *)
Lemma extname_shape (path : str) :
  extname path = [] \/ extname path = ["."%char]
  \/ exists stem ext k,
       path = stem ++ "."%char :: ext ++ slashes k
       /\ stem <> [] /\ ends_with_slash stem = false /\ ext <> []
       /\ extname path = "."%char :: ext.
Proof.
  destruct (strip_slashes (rev path)) as (k & r' & Hp & Hr').
  destruct (take_segment r') as (rseg & tail & -> & S & T).
  assert (P : path = rev (slashes k ++ rseg ++ tail)).
  { now rewrite <- Hp, rev_involutive. }
  assert (T' : tail = [] \/ exists t, tail = "/"%char :: t /\ rseg <> []).
  { destruct T as [-> | (t & ->)]; [now left|]. right. exists t.
    split; [reflexivity|]. intros ->.
    destruct Hr' as [E | (c & r'' & E & Hc)]; [discriminate|].
    inversion E; subst. discriminate. }
  destruct (split_dot rseg) as [D | (rext & rbase & -> & D)].
  - left. rewrite P. now apply extname_no_dot.
  - apply no_slash_app in S as [Se Sb].
    apply no_slash_cons in Sb as [_ Sb].
    rewrite <- app_assoc in P. cbn [app] in P.
    destruct (extname_with_dot k rext rbase tail Se D Sb T) as (H1 & H2 & H3).
    rewrite <- P in H1, H2, H3.
    destruct rbase as [|b rbase]; [left; now apply H1|].
    destruct rext as [|x rext]; [destruct (H3 eq_refl); tauto|].
    right. right.
    exists (rev tail ++ rev (b :: rbase)), (rev (x :: rext)), k.
    split; [|split; [|split; [|split]]].
    + rewrite P. apply path_with_dot.
    + intros E. apply app_eq_nil in E as [_ E].
      now apply (rev_not_nil (b :: rbase)).
    + unfold ends_with_slash. rewrite rev_app_distr, rev_involutive.
      cbn [app]. now apply no_slash_cons in Sb as [Sb _].
    + now apply rev_not_nil.
    + apply H2; discriminate.
Qed.

End PathFacts.

(** ** The file-type validator *)

Section FileType.

Lemma includes_In (l : list str) (x : str) : includes l x = true <-> In x l.
Proof.
  unfold includes. rewrite existsb_exists. split.
  - intros (y & Hy & E). apply str_eqb_eq in E. now subst.
  - intros H. exists x. split; [exact H | apply str_eqb_refl].
Qed.

Lemma lower_is_dot (c : ascii) :
  (toLowerCase_char c =? ".")%char = (c =? ".")%char.
Proof. each_char c; reflexivity. Qed.

Lemma lower_is_slash (c : ascii) :
  (toLowerCase_char c =? "/")%char = (c =? "/")%char.
Proof. each_char c; reflexivity. Qed.

Lemma no_dot_lower (s : str) : no_dot (toLowerCase s) = no_dot s.
Proof.
  induction s as [|c s IH]; [reflexivity|].
  unfold no_dot in *. simpl. now rewrite lower_is_dot, IH.
Qed.

Lemma no_slash_lower (s : str) : no_slash (toLowerCase s) = no_slash s.
Proof.
  induction s as [|c s IH]; [reflexivity|].
  unfold no_slash in *. simpl. now rewrite lower_is_slash, IH.
Qed.

Lemma lower_proper (e : str) :
  proper_extension (toLowerCase e) ->
  exists ext, e = "."%char :: ext /\ ext <> [] /\ no_slash ext = true
              /\ no_dot ext = true.
Proof.
  intros (y & E & Ny & S & D). destruct e as [|c ext]; [discriminate|].
  simpl in E. inversion E as [[Hc Hy]]. exists ext.
  assert (c = "."%char).
  { apply Ascii.eqb_eq. rewrite <- lower_is_dot, Hc. reflexivity. }
  subst c. split; [reflexivity|]. fold (toLowerCase ext) in Hy. subst y.
  rewrite no_slash_lower in S. rewrite no_dot_lower in D.
  repeat split; try assumption. intros ->. now apply Ny.
Qed.

(** A URL passes an allow-list of extensions exactly when it ends, before
    its trailing slashes, in one of them after a stem that is not empty
    and does not end in a slash. *)
Lemma extension_allowed (exts : list str) (url : str) :
  Forall proper_extension exts ->
  includes exts (toLowerCase (Path.extname url)) = true
  <-> has_extension exts url.
Proof.
  intros P. rewrite includes_In. rewrite Forall_forall in P.
  unfold has_extension. split.
  - intros H. assert (Px := P _ H).
    destruct (PathFacts.extname_shape url)
      as [E | [E | (stem & ext & k & Hu & Ns & Es & Ne & E)]].
    + rewrite E in Px. destruct Px as (y & X & _). discriminate.
    + rewrite E in Px. destruct Px as (y & X & Ny & _).
      inversion X. subst y. now contradiction Ny.
    + exists stem, ("."%char :: ext), k. repeat split; try assumption.
      now rewrite <- E.
  - intros (stem & e & k & -> & H & Ns & Es).
    destruct (lower_proper e (P _ H)) as (ext & -> & Ne & S & D).
    cbn [app]. now rewrite PathFacts.extname_of_extension.
Qed.

Lemma validExtensions_proper : Forall proper_extension validExtensions.
Proof.
  repeat constructor; eexists; (split; [reflexivity|]);
    (split; [discriminate|]); split; reflexivity.
Qed.

Lemma validImageExtensions_proper :
  Forall proper_extension validImageExtensions.
Proof.
  repeat constructor; eexists; (split; [reflexivity|]);
    (split; [discriminate|]); split; reflexivity.
Qed.

End FileType.

(** C4, as stated, fails: the extension is not the part of the URL after
    its final dot. A URL whose last segment begins with its only dot, as
    [x/.pdf], is rejected; a URL with a slash after the extension, as
    [a.pdf/], is accepted. *)
Lemma extension_is_not_from_final_dot :
  (spec_valid validExtensions (js "x/.pdf") = true
   /\ isValidFileType (js "x/.pdf") = false)
  /\ (spec_valid validExtensions (js "a.pdf/") = false
      /\ isValidFileType (js "a.pdf/") = true).
Proof. vm_compute. repeat split. Qed.

(** C4, amended. A document URL is accepted exactly when it reads
    stem, extension, slashes: an extension that is, in lower case, one of
    .pdf, .doc, .docx, .txt, after a stem that is not empty and does not
    end in a slash, and before any number of trailing slashes; a thumbnail
    URL likewise with .webp, .png, .jpeg, .jpg. A URL without such an
    extension is rejected. *)
Theorem file_type_by_extname (url : str) :
  (isValidFileType url = true <-> has_extension validExtensions url)
  /\ (isValidThumbnail url = true <-> has_extension validImageExtensions url).
Proof.
  split.
  - apply extension_allowed, validExtensions_proper.
  - apply extension_allowed, validImageExtensions_proper.
Qed.

(** ** Further properties of the specification *)

(** The word list holds no blank line (specification, 4.1). *)
Theorem load_badWords_no_blank (file : str) :
  Forall (fun word => trim word <> []) (load_badWords file).
Proof.
  apply Forall_forall. intros word H. unfold load_badWords in H.
  apply filter_In in H as [_ H]. apply negb_true_iff in H.
  intros E. apply is_empty_nil in E. congruence.
Qed.



(** The example of the specification (8): a request that passes every
    check is created on the empty store with no likes, is returned by its
    slug, has one like after a like, and cannot be created again. *)
Theorem example_scenario (badWords : list str) (now later : N)
    (req : upload_body) :
  missing_field req = false ->
  bad_language badWords req = Ok false ->
  isValidFileType (string_of (req_patternUrl req)) = true ->
  bad_thumbnail req = false ->
  example_run badWords now later req.
Proof.
  intros M L F T. unfold example_run.
  assert (S : slug_stored (string_of (req_slug req))
                [set_likes (new_pattern now req) 1]).
  { eexists. split; [now left | reflexivity]. }
  split; [|split; [|split; [|split]]].
  - apply (upload_accepts badWords now req []); try assumption.
    intros (p & [] & _).
  - unfold get_pattern, findOne. cbn [findOne_from].
    unfold has_slug. now rewrite str_eqb_refl.
  - reflexivity.
  - unfold like, findOne. cbn [findOne_from].
    unfold has_slug. now rewrite str_eqb_refl.
  - now apply upload_duplicate.
Qed.

Lemma example_scenario_witness :
  example_run [js "ass"] 1 2
    (request "a.pdf" "Highland Reel" "A" "trad tune" "s1").
Proof.
  apply example_scenario; vm_compute; reflexivity.
Defined.

(** ** The handlers and the stored records *)

Section Records.

Variable badWords : list str.

Lemma orelse_false (a b : outcome bool) :
  orelse a b = Ok false -> a = Ok false /\ b = Ok false.
Proof.
  unfold orelse. destruct a as [[|]|e|]; simpl; try discriminate.
  intros ->. now split.
Qed.

Lemma bad_language_false (req : upload_body) :
  bad_language badWords req = Ok false ->
  containsBadWords badWords (req_patternUrl req) = Ok false
  /\ containsBadWords badWords (req_patternName req) = Ok false
  /\ containsBadWords badWords (req_authorName req) = Ok false
  /\ containsBadWords badWords (req_description req) = Ok false.
Proof.
  unfold bad_language. intros H.
  apply orelse_false in H as [H1 H]. apply orelse_false in H as [H2 H].
  apply orelse_false in H as [H3 H4]. now repeat split.
Qed.

Lemma missing_field_false (req : upload_body) :
  missing_field req = false ->
  truthy (req_patternUrl req) = true /\ truthy (req_patternName req) = true
  /\ truthy (req_authorName req) = true /\ truthy (req_description req) = true
  /\ truthy (req_slug req) = true.
Proof.
  unfold missing_field. intros H.
  repeat (apply orb_false_elim in H as [H ?]).
  repeat split; now apply negb_false_iff.
Qed.


(** What a 201 of the upload handler tells. *)
Lemma upload_201 (now : N) (req : upload_body) (db db' : store) resp :
  upload badWords now req db = Ok (resp, db') -> status resp = 201 ->
  missing_field req = false
  /\ ~ slug_stored (string_of (req_slug req)) db
  /\ bad_language badWords req = Ok false
  /\ isValidFileType (string_of (req_patternUrl req)) = true
  /\ bad_thumbnail req = false
  /\ db' = db ++ [new_pattern now req].
Proof.
  intros H S.
  destruct (missing_field req) eqn:M.
  { rewrite upload_missing in H by exact M. inversion H; subst. discriminate. }
  destruct (existsb (has_slug (string_of (req_slug req))) db) eqn:X.
  { apply existsb_has_slug in X. rewrite upload_duplicate in H by assumption.
    inversion H; subst. discriminate. }
  assert (nU : ~ slug_stored (string_of (req_slug req)) db).
  { intros Y. apply existsb_has_slug in Y. congruence. }
  rewrite upload_checked in H by assumption.
  destruct (bad_language badWords req) as [[|]|e|]; simpl in H;
    try (inversion H; subst; discriminate).
  destruct (isValidFileType (string_of (req_patternUrl req))); simpl in H;
    [|inversion H; subst; discriminate].
  destruct (bad_thumbnail req); simpl in H;
    [inversion H; subst; discriminate|].
  inversion H; subst. now repeat split.
Qed.





End Records.





(** *** A term that begins with a quantifier *)

Section Quantifier.

Lemma tokenize_quantifier (q : ascii) (rest : str) :
  quantifier_char q = true ->
  exists k, Regex.tokenize (q :: rest) = Regex.TQuant k :: Regex.tokenize rest.
Proof.
  unfold quantifier_char. intros H.
  apply orb_prop in H as [H | H]; [apply orb_prop in H as [H | H]|];
    apply Ascii.eqb_eq in H; subst q; eexists; reflexivity.
Qed.

Lemma RegExp_new_quantifier_first (q : ascii) (w : str) :
  quantifier_char q = true -> plain w = true ->
  Regex.RegExp_new (word_pattern (q :: w)) true = Throw SyntaxError.
Proof.
  intros Q P. unfold Regex.RegExp_new, word_pattern.
  change (js "\b" ++ (q :: w) ++ js "\b")
    with ("\"%char :: "b"%char :: q :: (w ++ ["\"%char; "b"%char])).
  change (Regex.tokenize
            ("\"%char :: "b"%char :: q :: (w ++ ["\"%char; "b"%char])))
    with (Regex.TAssert Regex.AWordB
            :: Regex.tokenize (q :: (w ++ ["\"%char; "b"%char]))).
  destruct (tokenize_quantifier q (w ++ ["\"%char; "b"%char]) Q) as (k & ->).
  rewrite RegexFacts.tokenize_plain by exact P.
  cbn [existsb Regex.is_unmodelled orb]. rewrite RegexFacts.chars_modelled.
  reflexivity.
Qed.

Lemma some_false {A} (f : A -> outcome bool) (l : list A) :
  some f l = Ok false -> forall x, In x l -> f x = Ok false.
Proof.
  induction l as [|y l IH]; intros H x Hx; [destruct Hx|].
  simpl in H. destruct (f y) as [[|]|e|] eqn:E; simpl in H; try discriminate.
  destruct Hx as [<- | Hx]; [exact E | now apply IH].
Qed.

Lemma quantifier_term_never_false (badWords : list str) (word : str)
    (q : ascii) (w t : str) :
  In word badWords -> term_of word = q :: w ->
  quantifier_char q = true -> plain w = true -> t <> [] ->
  containsBadWords badWords (Some t) <> Ok false.
Proof.
  intros Hin E Q P N H. destruct t as [|c t]; [congruence|].
  unfold containsBadWords in H.
  apply some_false with (x := word) in H; [|exact Hin].
  unfold word_hits in H. fold (term_of word) in H. rewrite E in H.
  cbn [is_empty] in H. rewrite RegExp_new_quantifier_first in H by assumption.
  discriminate.
Qed.

End Quantifier.

(** One entry of the word list that begins, once trimmed, with [*], [+]
    or [?] and goes on without syntax characters stops every upload: no
    request is answered 201 and nothing is ever stored, since the pattern
    made of the entry does not compile. *)
Theorem quantifier_term_blocks_uploads (badWords : list str) (word : str)
    (q : ascii) (w : str) (now : N) (req : upload_body) (db db' : store)
    resp :
  In word badWords -> term_of word = q :: w ->
  quantifier_char q = true -> plain w = true ->
  upload badWords now req db = Ok (resp, db') ->
  status resp <> 201 /\ db' = db.
Proof.
  intros Hin E Q P H.
  assert (S : status resp <> 201).
  { intros S. destruct (upload_201 _ _ _ _ _ _ H S) as (M & _ & L & _).
    apply bad_language_false in L as (L & _).
    apply missing_field_false in M as (M & _).
    destruct (truthy_Some _ M) as (c & u & X). rewrite X in L.
    revert L. eapply quantifier_term_never_false; eauto. discriminate. }
  split; [exact S|]. eapply upload_writes_only_on_201; eauto.
Qed.

Lemma quantifier_term_blocks_uploads_witness :
  status server_error <> 201 /\ [highland_reel] = [highland_reel].
Proof.
  apply (quantifier_term_blocks_uploads [js "darn"; js " *ck "] (js " *ck ")
           "*"%char (js "ck") 4
           (request "b.pdf" "Jig" "B" "another tune" "s2") [highland_reel]);
    try reflexivity.
  right. now left.
Defined.

(** ** Fetching, and what the handlers keep *)

Section Fetch.

Lemma findOne_from_app_fresh (s : str) (db : store) (p : Pattern) (k : nat) :
  ~ slug_stored s db -> slug p = s ->
  findOne_from s k (db ++ [p]) = Some (k + length db, p).
Proof.
  revert k. induction db as [|q r IH]; intros k N E.
  - simpl. unfold has_slug. rewrite E, str_eqb_refl. now rewrite Nat.add_0_r.
  - simpl. destruct (has_slug s q) eqn:X.
    + exfalso. apply N. exists q. split; [now left | now apply has_slug_true].
    + rewrite IH; [f_equal; f_equal; lia | | exact E].
      intros (x & Hx & Hs). apply N. exists x. split; [now right | exact Hs].
Qed.


End Fetch.



(** A record that was just created is what fetching its slug returns:
    after an upload answered 201, [GET /pattern/:slug] with the slug of
    the request returns the new record, dated with the time of the upload
    and with no likes, whatever the store held before. *)
Theorem upload_then_get (badWords : list str) (now : N) (req : upload_body)
    (db db' : store) resp :
  upload badWords now req db = Ok (resp, db') -> status resp = 201 ->
  get_pattern (string_of (req_slug req)) db'
  = Ok (mkResponse 200 (Doc (new_pattern now req)), db')
  /\ dateUploaded (new_pattern now req) = now
  /\ likes (new_pattern now req) = Some 0%N.
Proof.
  intros H S. destruct (upload_201 _ _ _ _ _ _ H S) as (_ & N & _ & _ & _ & ->).
  split; [|now split]. unfold get_pattern, findOne.
  now rewrite (findOne_from_app_fresh _ db (new_pattern now req) 0 N eq_refl).
Qed.

Lemma upload_then_get_witness :
  let req := request "b.pdf" "Jig" "B" "another tune" "s2" in
  get_pattern (string_of (req_slug req)) [highland_reel; new_pattern 5 req]
  = Ok (mkResponse 200 (Doc (new_pattern 5 req)),
        [highland_reel; new_pattern 5 req])
  /\ dateUploaded (new_pattern 5 req) = 5%N
  /\ likes (new_pattern 5 req) = Some 0%N.
Proof.
  apply (upload_then_get [js "ass"] 5
           (request "b.pdf" "Jig" "B" "another tune" "s2") [highland_reel]
           _ (mkResponse 201 (Message "Pattern uploaded successfully")));
    reflexivity.
Defined.

(** The like handler reads a missing like count as zero: on a store with
    unique slugs, a like of a stored record that has no count answers 1
    and stores the count 1. *)
Theorem like_without_count (s : str) (db : store) (p : Pattern) :
  unique_slugs db -> In p db -> slug p = s -> likes p = None ->
  like s db = Ok (mkResponse 200 (Likes 1),
                  replace_slug s (set_likes p 1) db).
Proof.
  intros U Hin <- L. unfold like, findOne.
  destruct (findOne_from_unique p (set_likes p 1) db 0 U Hin) as (i & -> & Hs).
  simpl. rewrite L. simpl. now rewrite Hs.
Qed.

Lemma like_without_count_witness :
  let old := mkPattern (js "o.pdf") (js "Old") (js "O") (js "from before")
                       (js "s0") 0 None None in
  like (js "s0") [old; highland_reel]
  = Ok (mkResponse 200 (Likes 1),
        replace_slug (js "s0") (set_likes old 1) [old; highland_reel]).
Proof.
  apply like_without_count; try reflexivity; [|now left].
  repeat constructor; simpl; intuition discriminate.
Defined.

Lemma save_found_without_likes (s : str) (db : store) (k i : nat)
    (p : Pattern) (n : N) :
  findOne_from s k db = Some (i, p) ->
  k <= i
  /\ map without_likes (save_at (i - k) (set_likes p n) db)
     = map without_likes db.
Proof.
  revert k. induction db as [|q r IH]; intros k F; [discriminate|].
  simpl in F. destruct (has_slug s q) eqn:X.
  - inversion F; subst. split; [lia|]. now rewrite Nat.sub_diag.
  - destruct (IH _ F) as (Hle & E). split; [lia|].
    replace (i - k) with (S (i - S k)) by lia. simpl. now rewrite E.
Qed.

(** No handler deletes a record or rewrites one: an upload leaves the
    records it finds as they are, in their order, and adds at most one
    after them; a like changes like counts only. *)
Theorem handlers_keep_records (badWords : list str) (now : N)
    (req : upload_body) (s : str) (db db' : store) resp :
  (upload badWords now req db = Ok (resp, db') ->
   exists added, db' = db ++ added /\ length added <= 1)
  /\ (like s db = Ok (resp, db') ->
      map without_likes db' = map without_likes db).
Proof.
  split; intros H.
  - destruct (Nat.eq_dec (status resp) 201) as [E|E].
    + destruct (upload_201 _ _ _ _ _ _ H E) as (_ & _ & _ & _ & _ & ->).
      now exists [new_pattern now req].
    + rewrite (upload_writes_only_on_201 _ _ _ _ _ _ H E).
      exists []. split; [now rewrite app_nil_r | simpl; lia].
  - unfold like in H. destruct (findOne s db) as [[i p]|] eqn:F; simpl in H;
      inversion H; subst; [|reflexivity].
    destruct (save_found_without_likes _ _ _ _ _
                (likes_or_zero (likes p) + 1) F) as (_ & E).
    now rewrite Nat.sub_0_r in E.
Qed.

Lemma handlers_keep_records_witness :
  (exists added,
     [highland_reel;
      new_pattern 5 (request "b.pdf" "Jig" "B" "another tune" "s2")]
     = [highland_reel] ++ added /\ length added <= 1)
  /\ map without_likes [set_likes highland_reel 1]
     = map without_likes [highland_reel].
Proof.
  split.
  - apply (handlers_keep_records [js "ass"] 5
             (request "b.pdf" "Jig" "B" "another tune" "s2") (js "s1")
             [highland_reel] _
             (mkResponse 201 (Message "Pattern uploaded successfully"))).
    reflexivity.
  - apply (handlers_keep_records [js "ass"] 5
             (request "b.pdf" "Jig" "B" "another tune" "s2") (js "s1")
             [highland_reel] _ (mkResponse 200 (Likes 1))).
    reflexivity.
Defined.

(** ** Searching with any query *)

Lemma sorted_members (l : list Pattern) :
  forall p, In p (sort_newest_first l) <-> In p l.
Proof.
  intros p. split; apply Permutation_in;
    [apply sort_newest_first_perm | symmetry; apply sort_newest_first_perm].
Qed.

(** Whatever the query is, also one read as a pattern: a search never
    changes the store, and an answer 200 lists stored records only, each
    no more often than it is stored, newest first. *)
Theorem search_reads_only (q : option str) (db db' : store) resp :
  search q db = Ok (resp, db') ->
  db' = db /\ search_answer_sound db resp.
Proof.
  unfold search, search_answer_sound, reply. intros H.
  destruct q as [[|c q]|]; simpl in H;
    try (injection H as Hr Hd; subst db' resp;
         split; [reflexivity | discriminate]).
  destruct (Regex.RegExp_new (c :: q) true) as [re|e|]; simpl in H;
    try discriminate; injection H as Hr Hd; subst db' resp;
    (split; [reflexivity|]); [|discriminate].
  intros _. exists (sort_newest_first (filter (search_hit re) db)),
    (search_hit re).
  split; [reflexivity|]. split; [apply sort_newest_first_perm|].
  split; [|apply sort_newest_first_sorted].
  intros p Hp. apply (proj1 (sorted_members _ p)) in Hp.
  now apply filter_In in Hp.
Qed.

Lemma search_reads_only_witness :
  [highland_reel] = [highland_reel]
  /\ search_answer_sound [highland_reel]
       (mkResponse 200 (Docs [highland_reel])).
Proof.
  apply (search_reads_only (Some (js "^high|jig$"))). reflexivity.
Defined.

(** ** The variant without punctuation (server.js, lines 73-76) *)

Section Cleaned.

Lemma trimStart_suffix (s : str) :
  exists ws, s = ws ++ trimStart s /\ forallb is_space ws = true.
Proof.
  induction s as [|c s (ws & E & W)]; [now exists []|].
  simpl. destruct (is_space c) eqn:C.
  - exists (c :: ws). simpl. rewrite C, W. now rewrite <- E.
  - now exists [].
Qed.

Lemma trimStart_no_space (s : str) : starts_with_space (trimStart s) = false.
Proof.
  induction s as [|c s IH]; [reflexivity|].
  simpl. destruct (is_space c) eqn:C; [exact IH | exact C].
Qed.

Lemma trimStart_fixed (s : str) :
  starts_with_space s = false -> trimStart s = s.
Proof. destruct s as [|c s]; [reflexivity|]. simpl. now intros ->. Qed.

Lemma trimEnd_prefix (s : str) :
  exists ws, s = trimEnd s ++ ws /\ forallb is_space ws = true.
Proof.
  destruct (trimStart_suffix (rev s)) as (ws & E & W).
  exists (rev ws). split.
  - unfold trimEnd. rewrite <- rev_app_distr, <- E. now rewrite rev_involutive.
  - rewrite forallb_forall in *. intros x Hx. apply W. now apply in_rev.
Qed.

Lemma trimEnd_no_space (s : str) : ends_with_space (trimEnd s) = false.
Proof.
  unfold ends_with_space, trimEnd. rewrite rev_involutive.
  apply trimStart_no_space.
Qed.

Lemma trimEnd_fixed (s : str) : ends_with_space s = false -> trimEnd s = s.
Proof.
  unfold ends_with_space, trimEnd. intros H.
  rewrite trimStart_fixed by exact H. apply rev_involutive.
Qed.

Lemma starts_with_space_prefix (a b : str) :
  starts_with_space (a ++ b) = false -> starts_with_space a = false.
Proof. destruct a; [reflexivity | easy]. Qed.

Lemma trim_no_space (s : str) :
  starts_with_space (trim s) = false /\ ends_with_space (trim s) = false.
Proof.
  unfold trim. split; [|apply trimEnd_no_space].
  destruct (trimEnd_prefix (trimStart s)) as (ws & E & _).
  apply starts_with_space_prefix with (b := ws). rewrite <- E.
  apply trimStart_no_space.
Qed.

Lemma trim_fixed (s : str) :
  starts_with_space s = false -> ends_with_space s = false -> trim s = s.
Proof.
  intros S E. unfold trim. rewrite trimStart_fixed by exact S.
  now apply trimEnd_fixed.
Qed.

Lemma no_punct_app (a b : str) :
  no_punct (a ++ b) = true <-> no_punct a = true /\ no_punct b = true.
Proof. unfold no_punct. rewrite forallb_app. apply andb_true_iff. Qed.

Lemma no_punct_remove (s : str) : no_punct (remove_punct s) = true.
Proof.
  unfold no_punct, remove_punct. apply forallb_forall.
  intros x Hx. now apply filter_In in Hx.
Qed.

Lemma remove_punct_fixed (s : str) : no_punct s = true -> remove_punct s = s.
Proof.
  unfold no_punct, remove_punct. induction s as [|c s IH]; [reflexivity|].
  simpl. intros H. apply andb_prop in H as [-> H]. now rewrite IH.
Qed.

Lemma no_punct_collapse (b : bool) (s : str) :
  no_punct s = true -> no_punct (collapse_from b s) = true.
Proof.
  unfold no_punct. revert b. induction s as [|c s IH]; intros b H; [reflexivity|].
  simpl in H. apply andb_prop in H as [Hc H]. simpl.
  destruct (is_space c); [destruct b|].
  - now apply IH.
  - change (forallb (fun c0 => negb (is_punct c0))
              (collapse_from true s) = true). now apply IH.
  - simpl. rewrite Hc. now apply IH.
Qed.

Lemma no_punct_trim (s : str) : no_punct s = true -> no_punct (trim s) = true.
Proof.
  intros H. unfold trim.
  destruct (trimStart_suffix s) as (ws & E & _).
  destruct (trimEnd_prefix (trimStart s)) as (ws' & E' & _).
  rewrite E in H. apply no_punct_app in H as [_ H].
  rewrite E' in H. now apply no_punct_app in H as [H _].
Qed.

Lemma collapse_true_no_space (s : str) :
  starts_with_space (collapse_from true s) = false.
Proof.
  induction s as [|c s IH]; [reflexivity|].
  simpl. destruct (is_space c) eqn:C; [exact IH | exact C].
Qed.

Lemma single_spaced_collapse (b : bool) (s : str) :
  single_spaced (collapse_from b s) = true.
Proof.
  revert b. induction s as [|c s IH]; intros b; [reflexivity|].
  simpl. destruct (is_space c) eqn:C.
  - destruct b; [apply IH|]. simpl. rewrite collapse_true_no_space.
    simpl. apply IH.
  - simpl. rewrite C. simpl. apply IH.
Qed.

Lemma single_spaced_app (a b : str) :
  single_spaced (a ++ b) = true ->
  single_spaced a = true /\ single_spaced b = true.
Proof.
  induction a as [|c a IH]; [now split|].
  simpl. intros H. apply andb_prop in H as [Hc H].
  destruct (IH H) as (Ha & Hb). split; [|exact Hb]. rewrite Ha, andb_true_r.
  destruct (is_space c); [|reflexivity].
  apply andb_prop in Hc as [-> Hc]. simpl.
  destruct (starts_with_space a) eqn:X; [|reflexivity].
  destruct a as [|x a]; [discriminate|]. simpl in *. now rewrite X in Hc.
Qed.

Lemma single_spaced_trim (s : str) :
  single_spaced s = true -> single_spaced (trim s) = true.
Proof.
  intros H. unfold trim.
  destruct (trimStart_suffix s) as (ws & E & _).
  destruct (trimEnd_prefix (trimStart s)) as (ws' & E' & _).
  rewrite E in H. apply single_spaced_app in H as [_ H].
  rewrite E' in H. now apply single_spaced_app in H as [H _].
Qed.

Lemma collapse_any_run (b : bool) (s : str) :
  starts_with_space s = false -> collapse_from b s = collapse_from false s.
Proof. destruct s as [|c s]; [reflexivity|]. simpl. now intros ->. Qed.

Lemma collapse_fixed (s : str) :
  single_spaced s = true -> collapse_spaces s = s.
Proof.
  unfold collapse_spaces. induction s as [|c s IH]; [reflexivity|].
  simpl. intros H. apply andb_prop in H as [Hc H].
  destruct (is_space c).
  - apply andb_prop in Hc as [Hc Hs]. apply Ascii.eqb_eq in Hc. subst c.
    apply negb_true_iff in Hs. rewrite collapse_any_run by exact Hs.
    now rewrite IH.
  - now rewrite IH.
Qed.

End Cleaned.

(** The variant of the text that the filter also matches against is in
    normal form: it holds no character of the punctuation set, it neither
    begins nor ends with white space, and its white space is single
    spaces only. Cleaning a text that is in normal form changes nothing,
    so cleaning twice is cleaning once. *)
Theorem cleaned_normal_form (s : str) :
  normal_form (cleaned s)
  /\ (normal_form s -> cleaned s = s)
  /\ cleaned (cleaned s) = cleaned s.
Proof.
  assert (N : forall x, normal_form (cleaned x)).
  { intros x. unfold normal_form, cleaned. repeat split.
    - apply no_punct_trim, no_punct_collapse, no_punct_remove.
    - apply single_spaced_trim, single_spaced_collapse.
    - apply trim_no_space.
    - apply trim_no_space. }
  assert (F : forall x, normal_form x -> cleaned x = x).
  { intros x (P & S & B & E). unfold cleaned.
    rewrite remove_punct_fixed by exact P.
    rewrite collapse_fixed by exact S. now apply trim_fixed. }
  split; [apply N|]. split; [apply F|]. apply F, N.
Qed.

Lemma cleaned_normal_form_witness :
  cleaned (js "bass and darning") = js "bass and darning".
Proof.
  apply (proj1 (proj2 (cleaned_normal_form (js "bass and darning")))).
  repeat split.
Defined.

(** ** How the filter reads the word list *)

Section Entries.

Lemma word_hits_term (lowerText cleanText w1 w2 : str) :
  term_of w1 = term_of w2 ->
  word_hits lowerText cleanText w1 = word_hits lowerText cleanText w2.
Proof. intros E. unfold word_hits. fold (term_of w1) (term_of w2). now rewrite E. Qed.

Lemma some_terms (lowerText cleanText : str) (l1 l2 : list str) :
  map term_of l1 = map term_of l2 ->
  some (word_hits lowerText cleanText) l1
  = some (word_hits lowerText cleanText) l2.
Proof.
  revert l2. induction l1 as [|w1 l1 IH]; intros [|w2 l2] E; try discriminate;
    [reflexivity|].
  simpl in E. inversion E as [[E1 E2]]. simpl.
  rewrite (word_hits_term _ _ w1 w2 E1). now rewrite (IH l2 E2).
Qed.

Lemma trimStart_app (a b : str) :
  trimStart (a ++ b)
  = if forallb is_space a then trimStart b else trimStart a ++ b.
Proof.
  induction a as [|c a IH]; [reflexivity|].
  simpl. destruct (is_space c); [exact IH | reflexivity].
Qed.

Lemma trimStart_spaces (a : str) : forallb is_space a = true -> trimStart a = [].
Proof.
  induction a as [|c a IH]; [reflexivity|].
  simpl. intros H. apply andb_prop in H as [-> H]. now apply IH.
Qed.

Lemma trimEnd_app_space (x : str) (c : ascii) :
  is_space c = true -> trimEnd (x ++ [c]) = trimEnd x.
Proof.
  intros C. unfold trimEnd. rewrite rev_app_distr. simpl. now rewrite C.
Qed.

Lemma trim_app_space (s : str) (c : ascii) :
  is_space c = true -> trim (s ++ [c]) = trim s.
Proof.
  intros C. unfold trim. rewrite trimStart_app.
  destruct (forallb is_space s) eqn:A.
  - simpl. rewrite C. now rewrite trimStart_spaces.
  - now apply trimEnd_app_space.
Qed.

Lemma term_of_carriage_return (word : str) :
  term_of (word ++ [carriage_return]) = term_of word.
Proof. unfold term_of. now rewrite trim_app_space. Qed.

End Entries.

(** The filter reads an entry of the word list trimmed and in lower
    case: two lists whose entries agree up to white space around them and
    up to capitalization give the same answers. A carriage return at the
    end of the entries, as a file with CRLF line ends leaves it, changes
    nothing. *)
Theorem entries_read_trimmed_lowered (l1 l2 : list str) (text : option str) :
  (map term_of l1 = map term_of l2 ->
   containsBadWords l1 text = containsBadWords l2 text)
  /\ containsBadWords (map (fun w => w ++ [carriage_return]) l1) text
     = containsBadWords l1 text.
Proof.
  assert (G : forall a b, map term_of a = map term_of b ->
                          containsBadWords a text = containsBadWords b text).
  { intros a b E. destruct text as [[|c t]|]; try reflexivity.
    unfold containsBadWords. now apply some_terms. }
  split; [apply G|]. apply G. rewrite map_map. apply map_ext.
  apply term_of_carriage_return.
Qed.

Lemma entries_read_trimmed_lowered_witness :
  containsBadWords [js "  ASS"; js "Darn" ++ [carriage_return]]
                   (Some (js "well, darn!"))
  = containsBadWords [js "ass"; js "darn"] (Some (js "well, darn!")).
Proof.
  apply (entries_read_trimmed_lowered _ [js "ass"; js "darn"]). reflexivity.
Defined.

(** ** Terms with punctuation, and texts with punctuation *)

Section Punctuation.

Lemma is_punct_lower (c : ascii) : is_punct (toLowerCase_char c) = is_punct c.
Proof. each_char c; reflexivity. Qed.

Lemma no_punct_lower (s : str) : no_punct (toLowerCase s) = no_punct s.
Proof.
  unfold no_punct. induction s as [|c s IH]; [reflexivity|].
  simpl. now rewrite is_punct_lower, IH.
Qed.

Lemma same_ci_no_punct (m w : str) : same_ci m w -> no_punct m = no_punct w.
Proof.
  intros H. rewrite <- (no_punct_lower m), <- (no_punct_lower w). now rewrite H.
Qed.

(** A term that holds a punctuation character matches nowhere in a text
    without punctuation. *)
Lemma punctuated_no_match (w t : str) :
  no_punct w = false -> no_punct t = true -> ~ whole_word_match w t.
Proof.
  intros Hw Ht (pre & m & post & -> & C & _).
  apply no_punct_app in Ht as [_ Ht]. apply no_punct_app in Ht as [Ht _].
  rewrite (same_ci_no_punct _ _ C) in Ht. congruence.
Qed.

Lemma cleaned_no_punct (s : str) : no_punct (cleaned s) = true.
Proof.
  unfold cleaned. apply no_punct_trim, no_punct_collapse, no_punct_remove.
Qed.

End Punctuation.

(** A term that holds a character of the punctuation set can match in
    the lowered text only: the variant without punctuation never holds
    it. With a list of such terms (free of syntax characters) the filter
    answers [true] exactly when a term matches as a whole word in the
    lowered text. *)
Theorem punctuated_terms_need_original (badWords : list str) (t : str) :
  plain_list badWords ->
  (forall word, In word badWords -> no_punct (term_of word) = false) ->
  exists b,
    containsBadWords badWords (Some t) = Ok b
    /\ (b = true <->
        t <> [] /\ exists word, In word badWords
                                /\ whole_word_match (term_of word)
                                                    (toLowerCase t)).
Proof.
  intros P Q.
  destruct (containsBadWords_decides badWords (Some t) P) as (b & -> & Hb).
  exists b. split; [reflexivity|]. unfold filter_spec, blocks in Hb.
  rewrite Hb. split.
  - intros (t' & E & N & word & Hin & _ & [M | M]); inversion E; subst t'.
    + split; [exact N|]. now exists word.
    + exfalso. revert M. apply punctuated_no_match;
        [now apply Q | apply cleaned_no_punct].
  - intros (N & word & Hin & M). exists t. repeat split; try assumption.
    exists word. split; [exact Hin|]. split; [|now left].
    intros E. specialize (Q word Hin). rewrite E in Q. discriminate.
Qed.

Lemma punctuated_terms_need_original_witness :
  exists b,
    containsBadWords [js "f-word"] (Some (js "the F-Word, again")) = Ok b
    /\ (b = true <->
        js "the F-Word, again" <> []
        /\ exists word, In word [js "f-word"]
                        /\ whole_word_match (term_of word)
                             (toLowerCase (js "the F-Word, again"))).
Proof.
  apply punctuated_terms_need_original.
  - repeat constructor.
  - intros word [<- | []]. reflexivity.
Defined.

Section Spliced.

Lemma run_after_cons (b : bool) (c : ascii) (p : str) :
  run_after b (c :: p) = run_after (is_space c) p.
Proof.
  unfold run_after. simpl. destruct (rev p); reflexivity.
Qed.

Lemma collapse_from_app (b : bool) (p r : str) :
  collapse_from b (p ++ r)
  = collapse_from b p ++ collapse_from (run_after b p) r.
Proof.
  revert b. induction p as [|c p IH]; intros b; [reflexivity|].
  rewrite run_after_cons. simpl. destruct (is_space c).
  - destruct b; rewrite IH; reflexivity.
  - now rewrite IH.
Qed.

Lemma no_space_cons (c : ascii) (s : str) :
  no_space (c :: s) = true <-> is_space c = false /\ no_space s = true.
Proof.
  unfold no_space. simpl. rewrite andb_true_iff, negb_true_iff. reflexivity.
Qed.

Lemma collapse_no_space (b : bool) (m : str) :
  no_space m = true -> collapse_from b m = m.
Proof.
  revert b. induction m as [|c m IH]; intros b H; [reflexivity|].
  apply no_space_cons in H as [C H]. simpl. rewrite C. now rewrite IH.
Qed.

Lemma run_after_no_space (b : bool) (m : str) :
  no_space m = true -> m <> [] -> run_after b m = false.
Proof.
  intros H N. unfold run_after. destruct (rev m) as [|c r] eqn:E.
  - apply (f_equal (@rev ascii)) in E. rewrite rev_involutive in E.
    now contradiction N.
  - unfold no_space in H. rewrite forallb_forall in H.
    apply negb_true_iff, H, in_rev. rewrite E. now left.
Qed.

Lemma collapse_around (pre m post : str) :
  no_space m = true -> m <> [] ->
  collapse_spaces (pre ++ m ++ post)
  = collapse_from false pre ++ m ++ collapse_from false post.
Proof.
  intros H N. unfold collapse_spaces. rewrite !collapse_from_app.
  rewrite (collapse_no_space _ m H).
  now rewrite (run_after_no_space _ m H N).
Qed.

Lemma word_not_space (c : ascii) : is_word c = true -> is_space c = false.
Proof. each_char c; intros H; try discriminate H; reflexivity. Qed.

Lemma ends_with_word_snoc (x : str) (c : ascii) :
  ends_with_word (x ++ [c]) = is_word c.
Proof. unfold ends_with_word. now rewrite rev_app_distr. Qed.

Lemma collapse_ends_with_word (b : bool) (pre : str) :
  ends_with_word (collapse_from b pre) = true -> ends_with_word pre = true.
Proof.
  induction pre as [|c p IH] using rev_ind; [destruct b; easy|].
  rewrite collapse_from_app, ends_with_word_snoc. simpl.
  destruct (is_space c) eqn:C.
  - destruct (run_after b p) eqn:R.
    + rewrite app_nil_r. intros H. apply IH in H.
      unfold ends_with_word in H. unfold run_after in R.
      destruct (rev p) as [|x r]; [discriminate|].
      apply word_not_space in H. congruence.
    + now rewrite ends_with_word_snoc.
  - now rewrite ends_with_word_snoc.
Qed.

Lemma collapse_starts_with_word (post : str) :
  starts_with_word (collapse_from false post) = true ->
  starts_with_word post = true.
Proof.
  destruct post as [|c post]; [easy|]. simpl.
  destruct (is_space c); [discriminate | easy].
Qed.

Lemma trimStart_around (pre m post : str) :
  starts_with_space m = false -> m <> [] ->
  exists pre',
    trimStart (pre ++ m ++ post) = pre' ++ m ++ post
    /\ (ends_with_word pre' = true -> ends_with_word pre = true).
Proof.
  intros S N. rewrite trimStart_app. destruct (forallb is_space pre).
  - exists []. split; [|discriminate].
    destruct m as [|c m]; [congruence|]. simpl in *. now rewrite S.
  - exists (trimStart pre). split; [reflexivity|]. intros H.
    destruct (trimStart_suffix pre) as (ws & E & _). rewrite E.
    now apply ends_with_word_app.
Qed.

Lemma no_space_ends (m : str) :
  no_space m = true ->
  starts_with_space m = false /\ ends_with_space m = false.
Proof.
  unfold no_space. rewrite forallb_forall. intros H. split.
  - destruct m as [|c m]; [reflexivity|]. apply negb_true_iff, H. now left.
  - unfold ends_with_space. destruct (rev m) as [|c r] eqn:E; [reflexivity|].
    apply negb_true_iff, H, in_rev. rewrite E. now left.
Qed.

Lemma trimEnd_around (a m post : str) :
  ends_with_space m = false -> m <> [] ->
  exists post',
    trimEnd (a ++ m ++ post) = a ++ m ++ post'
    /\ (starts_with_word post' = true -> starts_with_word post = true).
Proof.
  intros S N. unfold trimEnd.
  rewrite !rev_app_distr, <- app_assoc.
  destruct (trimStart_around (rev post) (rev m) (rev a)) as (q & E & H).
  - exact S.
  - intros X. apply N. apply (f_equal (@rev ascii)) in X.
    now rewrite rev_involutive in X.
  - exists (rev q). rewrite E, !rev_app_distr, !rev_involutive, <- app_assoc.
    split; [reflexivity|]. intros Hq.
    unfold ends_with_word in H. rewrite rev_involutive in H.
    apply H. exact Hq.
Qed.

Lemma no_space_lower (s : str) : no_space (toLowerCase s) = no_space s.
Proof.
  unfold no_space. induction s as [|c s IH]; [reflexivity|].
  simpl. now rewrite is_space_lower, IH.
Qed.

Lemma not_true_false (b : bool) : (b = true -> False) -> b = false.
Proof. destruct b; intuition. Qed.

(** A word that stands alone, and holds no white space, still stands
    alone once white space is collapsed and trimmed. *)
Lemma standalone_collapse_trim (w s : str) :
  no_space w = true -> w <> [] ->
  standalone w s -> standalone w (trim (collapse_spaces s)).
Proof.
  intros Hw Nw (pre & m & post & -> & C & B1 & B2).
  assert (Hm : no_space m = true).
  { rewrite <- no_space_lower, C, no_space_lower. exact Hw. }
  assert (Nm : m <> []).
  { intros ->. apply same_ci_length in C. destruct w; [congruence | discriminate]. }
  destruct (no_space_ends m Hm) as (Sm & Em).
  rewrite collapse_around by assumption. unfold trim.
  destruct (trimStart_around (collapse_from false pre) m
              (collapse_from false post) Sm Nm) as (pre' & -> & Hpre).
  destruct (trimEnd_around pre' m (collapse_from false post) Em Nm)
    as (post' & -> & Hpost).
  exists pre', m, post'. repeat split; [exact C | |].
  - apply not_true_false. intros H. apply Hpre, collapse_ends_with_word in H.
    congruence.
  - apply not_true_false. intros H.
    apply Hpost, collapse_starts_with_word in H. congruence.
Qed.

End Spliced.

(** Punctuation does not hide a term: when a term without white space
    that begins and ends with a word character stands alone in the lowered
    text once the characters of the punctuation set are taken out of it,
    the filter answers [true] (the list being free of syntax
    characters). *)
Theorem spliced_term_flagged (badWords : list str) (word t : str) :
  plain_list badWords -> In word badWords ->
  word_edged (term_of word) -> no_space (term_of word) = true ->
  standalone (term_of word) (remove_punct (toLowerCase t)) ->
  containsBadWords badWords (Some t) = Ok true.
Proof.
  intros P Hin We Hs St.
  destruct (containsBadWords_decides badWords (Some t) P) as (b & -> & Hb).
  f_equal. apply Hb. exists t. split; [reflexivity|].
  assert (Nw := word_edged_not_empty _ We).
  split.
  - intros ->. destruct St as (pre & m & post & E & C & _).
    simpl in E. symmetry in E. apply app_eq_nil in E as [_ E].
    apply app_eq_nil in E as [-> _]. apply same_ci_length in C.
    destruct (term_of word); [congruence | discriminate].
  - exists word. split; [exact Hin|]. split; [exact Nw|]. right.
    apply whole_word_standalone; [exact We|].
    unfold cleaned. now apply standalone_collapse_trim.
Qed.

Lemma spliced_term_flagged_witness :
  containsBadWords [js "ass"; js "Darn"] (Some (js "well,  D.a-r_N  it!"))
  = Ok true.
Proof.
  apply spliced_term_flagged with (word := js "Darn").
  - repeat constructor.
  - right. now left.
  - split; reflexivity.
  - reflexivity.
  - apply standaloneb_spec. vm_compute. reflexivity.
Defined.

(** ** The lines of the word list (server.js, lines 23-26) *)

Section Lines.

Lemma split_lines_line (l : str) : no_newline l = true -> split_lines l = [l].
Proof.
  induction l as [|c l IH]; [reflexivity|].
  intros H. unfold no_newline in H. cbn [forallb] in H.
  apply andb_prop in H as [Hc H]. apply negb_true_iff in Hc.
  unfold newline in Hc. cbn [split_lines app]. rewrite Hc.
  now rewrite (IH H).
Qed.

Lemma split_lines_app (l r : str) :
  no_newline l = true ->
  split_lines (l ++ newline :: r) = l :: split_lines r.
Proof.
  induction l as [|c l IH]; [reflexivity|].
  intros H. unfold no_newline in H. cbn [forallb] in H.
  apply andb_prop in H as [Hc H]. apply negb_true_iff in Hc.
  unfold newline in Hc. cbn [split_lines app]. rewrite Hc.
  now rewrite (IH H).
Qed.

Lemma split_join (l : str) (ls : list str) :
  Forall (fun x => no_newline x = true) (l :: ls) ->
  split_lines (join_lines (l :: ls)) = l :: ls.
Proof.
  revert l. induction ls as [|l' ls IH]; intros l H.
  - inversion H; subst. now apply split_lines_line.
  - inversion H; subst. change (join_lines (l :: l' :: ls))
      with (l ++ newline :: join_lines (l' :: ls)).
    rewrite split_lines_app by assumption. now rewrite IH.
Qed.

End Lines.

(** The word list is the lines of the file that are not blank, in the
    order of the file and as they are written: for lines without a line
    feed, loading the file made of them returns those of them that hold
    something else than white space. *)
Theorem load_badWords_lines (ls : list str) :
  Forall (fun l => no_newline l = true) ls ->
  load_badWords (join_lines ls) = filter not_blank ls.
Proof.
  intros H. unfold load_badWords. destruct ls as [|l ls]; [reflexivity|].
  now rewrite split_join.
Qed.

Lemma load_badWords_lines_witness :
  load_badWords (join_lines [js "ass"; js "   "; js " Darn "; js ""])
  = filter not_blank [js "ass"; js "   "; js " Darn "; js ""].
Proof. apply load_badWords_lines. repeat constructor. Defined.

(** ** URLs with a query string *)

Section Query.

Lemma suffix_after_dot (a x b y : str) :
  a ++ "."%char :: x = b ++ y -> no_dot y = true -> exists z, x = z ++ y.
Proof.
  revert b. induction a as [|h a IH]; intros b E D.
  - destruct b as [|d b]; simpl in E.
    + subst y. discriminate.
    + inversion E. now exists b.
  - destruct b as [|d b]; simpl in E.
    + subst y. exfalso. clear IH. unfold no_dot in D.
      rewrite forallb_forall in D.
      assert (X : In "."%char (h :: a ++ "."%char :: x)).
      { right. apply in_or_app. right. now left. }
      apply D in X. discriminate.
    + inversion E. eauto.
Qed.

Lemma not_ending_in_slash (u q x : str) (c : ascii) :
  (c =? "/")%char = false -> no_slash q = true ->
  u ++ c :: q <> x ++ ["/"%char].
Proof.
  intros C S E. destruct q as [|h q] using rev_ind.
  - apply app_inj_tail in E as [_ E]. subst c. discriminate.
  - clear IHq. rewrite app_comm_cons, app_assoc in E.
    apply app_inj_tail in E as [_ E]. subst h.
    apply PathFacts.no_slash_app in S as [_ S]. discriminate.
Qed.

Lemma extension_without (exts : list str) (c : ascii) (u q : str) :
  Forall proper_extension exts ->
  toLowerCase_char c = c -> (c =? "/")%char = false -> (c =? ".")%char = false ->
  existsb (fun e => existsb (Ascii.eqb c) e) exts = false ->
  no_dot q = true -> no_slash q = true ->
  includes exts (toLowerCase (Path.extname (u ++ c :: q))) = false.
Proof.
  intros P L Cs Cd X D S. apply not_true_is_false. intros H.
  apply extension_allowed in H; [|exact P].
  destruct H as (stem & e & k & E & Hin & _ & _).
  assert (Pe : proper_extension (toLowerCase e)).
  { rewrite Forall_forall in P. now apply P. }
  destruct (lower_proper e Pe) as (ext & -> & _ & _ & _).
  destruct k as [|k].
  - simpl in E. rewrite app_nil_r in E. symmetry in E.
    apply suffix_after_dot in E as (z & ->).
    2:{ apply PathFacts.no_dot_cons. now split. }
    assert (Y : existsb (fun e => existsb (Ascii.eqb c) e) exts = true);
      [|congruence].
    apply existsb_exists. eexists. split; [exact Hin|].
    apply existsb_exists. exists c. split; [|apply Ascii.eqb_refl].
    simpl. right. rewrite toLowerCase_app. apply in_or_app. right.
    simpl. left. exact L.
  - assert (E' : u ++ c :: q
                 = (stem ++ ("."%char :: ext) ++ slashes k) ++ ["/"%char]).
    { rewrite E. unfold slashes. cbn [repeat]. rewrite repeat_cons.
      now rewrite <- !app_assoc. }
    revert E'. now apply not_ending_in_slash.
Qed.

End Query.

(** A URL that carries a query string or a fragment after the file name is
    rejected, as a document and as a thumbnail, whatever the file name is:
    when ['?'] or ['#'] is followed by neither a dot nor a slash, the
    extension that [path.extname] finds holds that character. *)
Theorem query_string_rejected (u q : str) (c : ascii) :
  c = "?"%char \/ c = "#"%char ->
  no_dot q = true -> no_slash q = true ->
  isValidFileType (u ++ c :: q) = false
  /\ isValidThumbnail (u ++ c :: q) = false.
Proof.
  intros C D S. unfold isValidFileType, isValidThumbnail.
  split; apply extension_without; try assumption;
    try apply validExtensions_proper; try apply validImageExtensions_proper;
    destruct C; subst c; reflexivity.
Qed.

Lemma query_string_rejected_witness :
  isValidFileType (js "https://cdn.example/files/reel.pdf?token=abc") = false
  /\ isValidThumbnail (js "https://cdn.example/files/reel.pdf?token=abc")
     = false.
Proof.
  apply (query_string_rejected (js "https://cdn.example/files/reel.pdf")
           (js "token=abc") "?"%char); [now left | reflexivity | reflexivity].
Defined.

(** ** The origin check *)

(** The origin is matched exactly: an allowed origin with anything after
    it, such as a longer host name that begins with an allowed one, is
    refused. *)
Theorem origin_match_is_exact (o rest : str) :
  In o allowedOrigins -> rest <> [] ->
  origin_allowed (Some (o ++ rest)) = false.
Proof.
  intros Ho N. unfold origin_allowed.
  assert (T : truthy (Some (o ++ rest)) = true).
  { destruct o; [destruct rest; [congruence | reflexivity] | reflexivity]. }
  rewrite T. cbn [negb string_of]. apply not_true_is_false. intros H.
  apply includes_In in H. apply N.
  destruct Ho as [<- | [<- | [<- | []]]];
    destruct H as [H | [H | [H | []]]];
    cbn in H; congruence.
Qed.

Lemma origin_match_is_exact_witness :
  origin_allowed (Some (js "https://treble.top" ++ js ".evil.example")) = false.
Proof.
  apply origin_match_is_exact; [now left | discriminate].
Defined.

(** ** Acceptance, and how the handlers compose *)


Section Compose.

Lemma prefix_ci_refl (q : str) : prefix_ci q q = true.
Proof.
  induction q as [|c q IH]; [reflexivity|].
  simpl. now rewrite Ascii.eqb_refl, IH.
Qed.

Lemma contains_cib_refl (q : str) : contains_cib q q = true.
Proof. destruct q; simpl; [reflexivity|]. now rewrite Ascii.eqb_refl, prefix_ci_refl. Qed.

End Compose.

(** A record that was just created is found by its name: after an upload
    answered 201, searching for the patternName of the request (when it
    holds no syntax character of patterns) returns a list that holds the
    new record. *)
Theorem upload_then_search (badWords : list str) (now : N)
    (req : upload_body) (db db' : store) resp :
  upload badWords now req db = Ok (resp, db') -> status resp = 201 ->
  plain (string_of (req_patternName req)) = true ->
  exists l,
    search (req_patternName req) db' = Ok (mkResponse 200 (Docs l), db')
    /\ In (new_pattern now req) l.
Proof.
  intros H S P.
  destruct (upload_201 _ _ _ _ _ _ H S) as (M & _ & _ & _ & _ & ->).
  apply missing_field_false in M as (_ & M & _).
  destruct (truthy_Some _ M) as (c & q & E).
  assert (X : patternName (new_pattern now req) = c :: q).
  { unfold new_pattern. cbn [patternName]. now rewrite E. }
  rewrite E in P |- *. cbn [string_of] in P.
  rewrite search_plain by (assumption || discriminate).
  eexists. split; [reflexivity|].
  apply (proj2 (sorted_members _ _)). apply filter_In. split.
  - apply in_or_app. right. now left.
  - unfold record_contains. now rewrite X, contains_cib_refl.
Qed.

Lemma upload_then_search_witness :
  let req := request "b.pdf" "Jig" "B" "another tune" "s2" in
  exists l,
    search (req_patternName req) [highland_reel; new_pattern 5 req]
    = Ok (mkResponse 200 (Docs l), [highland_reel; new_pattern 5 req])
    /\ In (new_pattern 5 req) l.
Proof.
  apply (upload_then_search [js "ass"] 5
           (request "b.pdf" "Jig" "B" "another tune" "s2") [highland_reel]
           _ created); reflexivity.
Defined.



(** ** A query with an alternation *)

Section Alternation.
Import Regex.

Lemma tokenize_alternation (a b : str) :
  plain a = true -> plain b = true ->
  tokenize (a ++ "|"%char :: b) = map TChar a ++ TBar :: map TChar b ++ [].
Proof.
  intros Pa Pb. rewrite RegexFacts.tokenize_plain by exact Pa.
  change (tokenize ("|"%char :: b)) with (TBar :: tokenize b).
  rewrite <- (app_nil_r b) at 1. now rewrite RegexFacts.tokenize_plain.
Qed.

Lemma RegExp_new_alternation (a b : str) :
  plain a = true -> plain b = true ->
  RegExp_new (a ++ "|"%char :: b) true
  = Ok (mkRegExp (RAlt (literal a REmpty) (literal b REmpty)) true).
Proof.
  intros Pa Pb. unfold RegExp_new. rewrite tokenize_alternation by assumption.
  rewrite RegexFacts.chars_modelled. cbn [existsb is_unmodelled orb].
  rewrite RegexFacts.chars_modelled. cbn [existsb].
  rewrite RegexFacts.parse_chars. cbn [parse].
  rewrite RegexFacts.parse_chars. cbn [parse bind]. do 2 f_equal.
  unfold frame_regex, next_alternative.
  cbn [alts cur fold_left empty_frame].
  rewrite !RegexFacts.seq_of_rev, !app_nil_r, !rev_involutive. reflexivity.
Qed.

Lemma existsb_or {A} (f g : A -> bool) (l : list A) :
  existsb (fun x => f x || g x) l = existsb f l || existsb g l.
Proof.
  induction l as [|x l IH]; [reflexivity|].
  simpl. rewrite IH. destruct (f x), (g x), (existsb f l); reflexivity.
Qed.

Lemma existsb_same {A} (f g : A -> bool) (l : list A) :
  (forall x, f x = g x) -> existsb f l = existsb g l.
Proof.
  intros H. induction l as [|x l IH]; [reflexivity|].
  simpl. now rewrite H, IH.
Qed.

Lemma test_alternation (x y : regex) (s : str) :
  test (mkRegExp (RAlt x y) true) s
  = test (mkRegExp x true) s || test (mkRegExp y true) s.
Proof.
  unfold test. rewrite <- existsb_or. apply existsb_same.
  intros i. unfold matches_at. cbn [ast ignoreCase ends].
  destruct (ends true x s i); reflexivity.
Qed.

Lemma search_hit_alternation (a b : str) (p : Pattern) :
  search_hit (mkRegExp (RAlt (literal a REmpty) (literal b REmpty)) true) p
  = contains_either a b p.
Proof.
  unfold search_hit, contains_either, record_contains.
  rewrite !test_alternation, !MatchFacts.test_literal.
  destruct (contains_cib a (patternName p)), (contains_cib a (authorName p)),
    (contains_cib a (description p)), (contains_cib b (patternName p)),
    (contains_cib b (authorName p)), (contains_cib b (description p));
    reflexivity.
Qed.

End Alternation.

(** The query is a pattern, so [a|b] searches for either: for [a] and
    [b] without syntax characters, the search for [a|b] returns the
    records that hold [a] or hold [b] in one of the three text fields,
    newest first. *)
Theorem search_alternation (a b : str) (db : store) :
  plain a = true -> plain b = true ->
  exists l,
    search (Some (a ++ "|"%char :: b)) db = Ok (mkResponse 200 (Docs l), db)
    /\ Permutation l (filter (contains_either a b) db)
    /\ newest_first l.
Proof.
  intros Pa Pb.
  exists (sort_newest_first (filter (contains_either a b) db)).
  split; [|split; [apply sort_newest_first_perm | apply sort_newest_first_sorted]].
  unfold search.
  destruct (a ++ "|"%char :: b) as [|c q] eqn:E;
    [now destruct a|].
  rewrite <- E, RegExp_new_alternation by assumption.
  cbn [bind catch]. unfold reply.
  now rewrite (filter_ext _ _ (search_hit_alternation a b)).
Qed.

Lemma search_alternation_witness :
  exists l,
    search (Some (js "jig" ++ "|"%char :: js "reel")) [highland_reel]
    = Ok (mkResponse 200 (Docs l), [highland_reel])
    /\ Permutation l (filter (contains_either (js "jig") (js "reel"))
                             [highland_reel])
    /\ newest_first l.
Proof. apply search_alternation; reflexivity. Defined.
